(** * Terrain mesh construction pipeline

    A shallow embedding of the mesh-construction functions of the terrain
    viewer ([normalizePoints], [triangulateSimplified], [calculateNormals]
    and the part of [main] that chains them), followed by the properties
    of the specification that concern them.

    Both source variants contain the same text for these functions, so a
    single embedding covers them.

    Data is modelled as the program has it:
    - [float] is IEEE 754 binary32, with round-to-nearest-even, through the
      parametric operations of [SpecFloat] at precision 24 and [emax] 128:
      every operation of the source is one correctly rounded binary32
      operation, as on a target that evaluates [float] expressions in
      single precision without fusing multiplications and additions;
    - [unsigned int] is a 32-bit value kept in [Z], with the truncation of
      the [size_t] to [unsigned int] conversion written out;
    - [std::vector] is a list, read with stdpp's lookup and written with
      its insert; a read or write outside the vector is undefined behaviour
      in the source and makes the embedded function return [None];
    - text written to [std::cout] and [std::cerr] is a list of diagnostic
      events. *)

From Stdlib Require Import ZArith Bool Lia.
From Stdlib Require Import Floats.SpecFloat.
From stdpp Require Import base option list.

#[local] Open Scope Z_scope.

(** ** binary32 arithmetic *)

Module F32.

Definition prec : Z := 24.
Definition emax : Z := 128.

Definition float : Type := spec_float.

Definition add : float -> float -> float := SFadd prec emax.
Definition sub : float -> float -> float := SFsub prec emax.
Definition mul : float -> float -> float := SFmul prec emax.
Definition div : float -> float -> float := SFdiv prec emax.
Definition sqrt : float -> float := SFsqrt prec emax.

(** [a < b], [a > b] and [a == b] of the source: all three are false as
    soon as one operand is NaN. *)
Definition ltb : float -> float -> bool := SFltb.
Definition gtb (a b : float) : bool := SFltb b a.
Definition eqb : float -> float -> bool := SFeqb.

(** The float nearest to the integer [n]. *)
Definition of_Z (n : Z) : float := binary_normalize prec emax n 0 false.

Definition zero : float := S754_zero false.
Definition one : float := Eval vm_compute in of_Z 1.
Definition two : float := Eval vm_compute in of_Z 2.
Definition nan : float := S754_nan.

(** Membership in the binary32 format: mantissa and exponent of a finite
    value are the canonical ones. *)
Definition valid (f : float) : bool := valid_binary prec emax f.

Definition is_nan (f : float) : bool :=
  match f with S754_nan => true | _ => false end.

Definition is_zero (f : float) : bool :=
  match f with S754_zero _ => true | _ => false end.

End F32.

Declare Scope f32_scope.
Delimit Scope f32_scope with f32.
Bind Scope f32_scope with F32.float.
Infix "+" := F32.add : f32_scope.
Infix "-" := F32.sub : f32_scope.
Infix "*" := F32.mul : f32_scope.
Infix "/" := F32.div : f32_scope.
Infix "<?" := F32.ltb : f32_scope.
Infix ">?" := F32.gtb : f32_scope.
Infix "=?" := F32.eqb : f32_scope.

(** ** The part of GLM the program uses

    GLM is a header-only library outside the repository. The definitions
    below follow its scalar reference implementation for [vec3] of [float]
    ([detail/type_vec3.inl], [detail/func_geometric.inl],
    [detail/func_exponential.inl]). *)

Module glm.

Record vec3 : Type := Vec3 { x : F32.float; y : F32.float; z : F32.float }.

(** [glm::vec3(s)]: the scalar in every component. *)
Definition splat (s : F32.float) : vec3 := Vec3 s s s.

(** [a + b], [a - b] and [v * s], componentwise. *)
Definition add (a b : vec3) : vec3 :=
  Vec3 (x a + x b)%f32 (y a + y b)%f32 (z a + z b)%f32.
Definition sub (a b : vec3) : vec3 :=
  Vec3 (x a - x b)%f32 (y a - y b)%f32 (z a - z b)%f32.
Definition scale (v : vec3) (s : F32.float) : vec3 :=
  Vec3 (x v * s)%f32 (y v * s)%f32 (z v * s)%f32.

(** [compute_dot<vec<3,T,Q>>]: [tmp = a * b; tmp.x + tmp.y + tmp.z]. *)
Definition dot (a b : vec3) : F32.float :=
  ((x a * x b + y a * y b) + z a * z b)%f32.

(** [compute_cross]. *)
Definition cross (a b : vec3) : vec3 :=
  Vec3 (y a * z b - y b * z a)%f32
       (z a * x b - z b * x a)%f32
       (x a * y b - x b * y a)%f32.

(** [length(v) = sqrt(dot(v, v))], [distance(p0, p1) = length(p1 - p0)]. *)
Definition length (v : vec3) : F32.float := F32.sqrt (dot v v).
Definition distance (p0 p1 : vec3) : F32.float := length (sub p1 p0).

(** [inversesqrt(s) = 1 / sqrt(s)], [normalize(v) = v * inversesqrt(dot(v, v))]:
    no case is set apart for the zero vector. *)
Definition inversesqrt (s : F32.float) : F32.float :=
  (F32.one / F32.sqrt s)%f32.
Definition normalize (v : vec3) : vec3 := scale v (inversesqrt (dot v v)).

Definition zero : vec3 := splat F32.zero.
Definition all_nan : vec3 := splat F32.nan.

(** Every component is a zero, of either sign. *)
Definition is_zero (v : vec3) : bool :=
  F32.is_zero (x v) && F32.is_zero (y v) && F32.is_zero (z v).

End glm.

(** ** Data of the program *)

Module Point.
Record t : Type := Make { x : F32.float; y : F32.float; z : F32.float }.
End Point.
Abbreviation Point := Point.t.

Record Vertex : Type := mkVertex { position : glm.vec3; normal : glm.vec3 }.

Definition set_normal (n : glm.vec3) (v : Vertex) : Vertex :=
  mkVertex (position v) n.

(** [unsigned int]: 32 bits. A [size_t] value stored in one is reduced
    modulo [2^32]. *)
Definition UINT_MODULUS : Z := 2 ^ 32.
Definition to_unsigned (i : nat) : Z := Z.of_nat i mod UINT_MODULUS.

(** Lines written to the console streams. *)
Inductive Diag : Type :=
| PointsNormalized
    (* cout: "Points normalized to range [-1, 1]." *)
| NotEnoughPoints
    (* cerr: "Not enough points to create a mesh." *)
| RemovedTriangle (i0 i1 i2 : Z) (d01 d12 d20 : F32.float)
    (* cout: "Removed triangle: i0, i1, i2 | Edges: d01, d12, d20" *)
| FilterCompleted (remaining : Z)
    (* cout: "Filtered triangulation completed. Remaining triangles: n" *)
| NoTerrainData
    (* cerr: "No terrain data loaded." *)
| MeshSizes (nvertices nindices : nat)
    (* cout: "Vertices: n, Indices: m" *).

(** ** normalizePoints *)

Record Bounds : Type := mkBounds {
  minX : F32.float; maxX : F32.float;
  minY : F32.float; maxY : F32.float;
  minZ : F32.float; maxZ : F32.float
}.

Definition initBounds (p : Point) : Bounds :=
  mkBounds (Point.x p) (Point.x p) (Point.y p) (Point.y p) (Point.z p) (Point.z p).

(** One round of the first loop: six guarded assignments. *)
Definition updateBounds (b : Bounds) (p : Point) : Bounds :=
  mkBounds
    (if (Point.x p <? minX b)%f32 then Point.x p else minX b)
    (if (Point.x p >? maxX b)%f32 then Point.x p else maxX b)
    (if (Point.y p <? minY b)%f32 then Point.y p else minY b)
    (if (Point.y p >? maxY b)%f32 then Point.y p else maxY b)
    (if (Point.z p <? minZ b)%f32 then Point.z p else minZ b)
    (if (Point.z p >? maxZ b)%f32 then Point.z p else maxZ b).

(** [std::max] of a three-element initializer list: the running maximum is
    replaced when it compares less than the next element. *)
Definition max3 (a b c : F32.float) : F32.float :=
  let m := if (a <? b)%f32 then b else a in
  if (m <? c)%f32 then c else m.

Definition centerOf (lo hi : F32.float) : F32.float := ((lo + hi) / F32.two)%f32.

Definition scaleOf (b : Bounds) : F32.float :=
  let scale :=
    (max3 (maxX b - minX b) (maxY b - minY b) (maxZ b - minZ b) / F32.two)%f32 in
  if (scale =? F32.zero)%f32 then F32.one else scale.

Definition rescale (b : Bounds) (p : Point) : Point :=
  let scale := scaleOf b in
  Point.Make
    ((Point.x p - centerOf (minX b) (maxX b)) / scale)%f32
    ((Point.y p - centerOf (minY b) (maxY b)) / scale)%f32
    ((Point.z p - centerOf (minZ b) (maxZ b)) / scale)%f32.

(** The function returns the vector it was given by reference, and the
    lines it wrote. *)
Definition normalizePoints (points : list Point) : list Point * list Diag :=
  match points with
  | [] => ([], [])
  | p0 :: _ =>
      let b := fold_left updateBounds points (initBounds p0) in
      (rescale b <$> points, [PointsNormalized])
  end.

(** ** triangulateSimplified *)

Definition toVertex (p : Point) : Vertex :=
  mkVertex (glm.Vec3 (Point.x p) (Point.y p) (Point.z p)) (glm.splat F32.zero).

(** [v.resize(n)]: the first [n] elements, then value-initialised ones. *)
Definition resize {A : Type} (n : nat) (d : A) (l : list A) : list A :=
  take n l ++ replicate (n - length l) d.

(** The loop [vertices[i].position = ...; vertices[i].normal = ...] from
    position [i] on. It runs after [resize], so every write is in range. *)
Fixpoint fillVertices (points : list Point) (i : nat) (vertices : list Vertex)
  : list Vertex :=
  match points with
  | [] => vertices
  | p :: ps => fillVertices ps (S i) (<[i := toVertex p]> vertices)
  end.

(** The comparator handed to [std::sort]. *)
Definition pointLess (a b : Point) : bool :=
  (Point.x a <? Point.x b)%f32
  || ((Point.x a =? Point.x b)%f32 && (Point.z a <? Point.z b)%f32).

(** [std::sort] belongs to the standard library, which fixes neither the
    algorithm nor the order of equivalent elements. An insertion sort
    stands for it; the triangulator is also defined over an arbitrary
    rearrangement, see [triangulateWith]. *)
Fixpoint insertBy (less : Point -> Point -> bool) (a : Point) (l : list Point)
  : list Point :=
  match l with
  | [] => [a]
  | b :: l' => if less a b then a :: b :: l' else b :: insertBy less a l'
  end.

Definition std_sort (less : Point -> Point -> bool) (l : list Point) : list Point :=
  foldr (insertBy less) [] l.

(** One round of the emission loop: [p0], [p1] and [p2] are read from the
    sorted copy and never used; the loop counter itself is pushed. *)
Definition emitTriple (sortedPoints : list Point) (i : nat) (indices : list Z)
  : option (list Z) :=
  _ ← sortedPoints !! i;
  _ ← sortedPoints !! (i + 1)%nat;
  _ ← sortedPoints !! (i + 2)%nat;
  Some (indices ++ [to_unsigned i; to_unsigned (i + 1); to_unsigned (i + 2)]).

Fixpoint emitLoop (sortedPoints : list Point) (counters : list nat) (indices : list Z)
  : option (list Z) :=
  match counters with
  | [] => Some indices
  | i :: counters' =>
      indices' ← emitTriple sortedPoints i indices;
      emitLoop sortedPoints counters' indices'
  end.

(** [for (size_t i = 0; i < sortedPoints.size() - 2; ++i)]. With fewer than
    two elements the unsigned bound wraps around and the loop reads outside
    the vector. *)
Definition generateCandidates (sortedPoints : list Point) (indices : list Z)
  : option (list Z) :=
  if decide (length sortedPoints < 2)%nat then None
  else emitLoop sortedPoints (seq 0 (length sortedPoints - 2)) indices.

(** [0.15f]: the binary32 value nearest to 0.15, [10066330 * 2^-26]. *)
Definition maxEdgeLength : F32.float := S754_finite false 10066330 (-26).

Definition positionAt (vertices : list Vertex) (i : Z) : option glm.vec3 :=
  position <$> vertices !! Z.to_nat i.

Definition edgesShort (d01 d12 d20 : F32.float) : bool :=
  (d01 <? maxEdgeLength)%f32 && (d12 <? maxEdgeLength)%f32
  && (d20 <? maxEdgeLength)%f32.

(** The filter loop, three indices at a time. One or two left-over indices
    mean a read past the end of [indices]. *)
Fixpoint filterLoop (vertices : list Vertex) (indices : list Z)
    (filteredIndices : list Z) (log : list Diag) : option (list Z * list Diag) :=
  match indices with
  | [] => Some (filteredIndices, log)
  | i0 :: i1 :: i2 :: rest =>
      v0 ← positionAt vertices i0;
      v1 ← positionAt vertices i1;
      v2 ← positionAt vertices i2;
      let d01 := glm.distance v0 v1 in
      let d12 := glm.distance v1 v2 in
      let d20 := glm.distance v2 v0 in
      if edgesShort d01 d12 d20
      then filterLoop vertices rest (filteredIndices ++ [i0; i1; i2]) log
      else filterLoop vertices rest filteredIndices
             (log ++ [RemovedTriangle i0 i1 i2 d01 d12 d20])
  | _ => None
  end.

Definition filterLongEdges (vertices : list Vertex) (indices : list Z)
  : option (list Z * list Diag) :=
  filterLoop vertices indices [] [].

Definition zeroVertex : Vertex := mkVertex glm.zero glm.zero.

Section Triangulator.

(** What [std::sort] does to the copy of the points. *)
Variable sortPoints : list Point -> list Point.

(** [vertices] and [indices] are the vectors passed by reference; the
    result holds their final contents and the lines written. *)
Definition triangulateWith (points : list Point) (vertices : list Vertex)
    (indices : list Z) : option (list Vertex * list Z * list Diag) :=
  if decide (length points < 3)%nat then
    Some (vertices, indices, [NotEnoughPoints])
  else
    let vertices :=
      fillVertices points 0 (resize (length points) zeroVertex vertices) in
    let sortedPoints := sortPoints points in
    indices ← generateCandidates sortedPoints indices;
    '(filteredIndices, log) ← filterLongEdges vertices indices;
    Some (vertices, filteredIndices,
          log ++ [FilterCompleted (Z.of_nat (length filteredIndices) / 3)]).

End Triangulator.

Definition triangulateSimplified
  : list Point -> list Vertex -> list Z -> option (list Vertex * list Z * list Diag) :=
  triangulateWith (std_sort pointLess).

(** ** calculateNormals *)

Definition resetNormals (vertices : list Vertex) : list Vertex :=
  set_normal (glm.splat F32.zero) <$> vertices.

(** [vertex.normal += n]. *)
Definition addNormal (n : glm.vec3) (v : Vertex) : Vertex :=
  set_normal (glm.add (normal v) n) v.

Definition faceNormal (v0 v1 v2 : glm.vec3) : glm.vec3 :=
  glm.normalize (glm.cross (glm.sub v1 v0) (glm.sub v2 v0)).

(** The accumulation loop. The three positions are read first; the three
    updates then follow one another, so that a vertex named twice by a
    triangle receives the face normal twice. *)
Fixpoint accumulateLoop (vertices : list Vertex) (indices : list Z)
  : option (list Vertex) :=
  match indices with
  | [] => Some vertices
  | i0 :: i1 :: i2 :: rest =>
      v0 ← positionAt vertices i0;
      v1 ← positionAt vertices i1;
      v2 ← positionAt vertices i2;
      let n := faceNormal v0 v1 v2 in
      let vertices := alter (addNormal n) (Z.to_nat i0) vertices in
      let vertices := alter (addNormal n) (Z.to_nat i1) vertices in
      let vertices := alter (addNormal n) (Z.to_nat i2) vertices in
      accumulateLoop vertices rest
  | _ => None
  end.

Definition normalizeNormal (v : Vertex) : Vertex :=
  set_normal (glm.normalize (normal v)) v.

Definition calculateNormals (vertices : list Vertex) (indices : list Z)
  : option (list Vertex) :=
  accumulated ← accumulateLoop (resetNormals vertices) indices;
  Some (normalizeNormal <$> (accumulated : list Vertex)).

(** ** main

    The mesh construction in [main], from the points [loadTerrainData]
    returned to the two vectors handed to [renderLoop]. The window and
    OpenGL set-up, the file reading and the timing line are left out. *)

Inductive Outcome : Type :=
| Exited (code : Z)
| Rendered (vertices : list Vertex) (indices : list Z).

Definition main (points : list Point) : option (Outcome * list Diag) :=
  match points with
  | [] => Some (Exited (-1), [NoTerrainData])
  | _ =>
      let '(points, log1) := normalizePoints points in
      '(vertices, indices, log2) ← triangulateSimplified points [] [];
      let log3 := [MeshSizes (length vertices) (length indices)] in
      vertices ← calculateNormals vertices indices;
      Some (Rendered vertices indices, log1 ++ log2 ++ log3)
  end.

(** * The rest of the two files

    The functions beside the mesh construction that can be embedded: the
    circumcircle test, the keyboard and mouse callbacks and the camera
    movement. The shader set-up, the render loop and the file reading only
    talk to OpenGL, GLFW and the file system and are left out. *)

(** ** isPointInCircumcircle *)

(** [glm::vec4], [glm::mat4] by columns and [glm::determinant] of a
    4 by 4 matrix, after GLM's [compute_determinant<4, 4, T, Q, Aligned>]
    ([detail/func_matrix.inl]). *)
Module glm4.

Record vec4 : Type :=
  Vec4 { x : F32.float; y : F32.float; z : F32.float; w : F32.float }.

Record mat4 : Type := Mat4 { c0 : vec4; c1 : vec4; c2 : vec4; c3 : vec4 }.

Definition determinant (m : mat4) : F32.float :=
  let SubFactor00 := (z (c2 m) * w (c3 m) - z (c3 m) * w (c2 m))%f32 in
  let SubFactor01 := (y (c2 m) * w (c3 m) - y (c3 m) * w (c2 m))%f32 in
  let SubFactor02 := (y (c2 m) * z (c3 m) - y (c3 m) * z (c2 m))%f32 in
  let SubFactor03 := (x (c2 m) * w (c3 m) - x (c3 m) * w (c2 m))%f32 in
  let SubFactor04 := (x (c2 m) * z (c3 m) - x (c3 m) * z (c2 m))%f32 in
  let SubFactor05 := (x (c2 m) * y (c3 m) - x (c3 m) * y (c2 m))%f32 in
  let DetCof0 :=
    (y (c1 m) * SubFactor00 - z (c1 m) * SubFactor01 + w (c1 m) * SubFactor02)%f32 in
  let DetCof1 :=
    SFopp (x (c1 m) * SubFactor00 - z (c1 m) * SubFactor03 + w (c1 m) * SubFactor04)%f32 in
  let DetCof2 :=
    (x (c1 m) * SubFactor01 - y (c1 m) * SubFactor03 + w (c1 m) * SubFactor05)%f32 in
  let DetCof3 :=
    SFopp (x (c1 m) * SubFactor02 - y (c1 m) * SubFactor04 + z (c1 m) * SubFactor05)%f32 in
  (x (c0 m) * DetCof0 + y (c0 m) * DetCof1
   + z (c0 m) * DetCof2 + w (c0 m) * DetCof3)%f32.

End glm4.

(** The column the function builds for a corner [a] of the triangle. *)
Definition circumcircleColumn (p a : glm.vec3) : glm4.vec4 :=
  glm4.Vec4 (glm.x a - glm.x p)%f32 (glm.y a - glm.y p)%f32 (glm.z a - glm.z p)%f32
    ((glm.x a - glm.x p) * (glm.x a - glm.x p)
     + (glm.y a - glm.y p) * (glm.y a - glm.y p))%f32.

Definition isPointInCircumcircle (p a b c : glm.vec3) : bool :=
  let mat :=
    glm4.Mat4 (circumcircleColumn p a) (circumcircleColumn p b)
      (circumcircleColumn p c)
      (glm4.Vec4 F32.zero F32.zero F32.zero F32.one) in
  (glm4.determinant mat >? F32.zero)%f32.

(** ** keyCallback *)

(** Constants of GLFW's header. *)
Definition GLFW_RELEASE : Z := 0.
Definition GLFW_PRESS : Z := 1.
Definition GLFW_MOUSE_BUTTON_RIGHT : Z := 1.
Definition GLFW_KEY_A : nat := 65.
Definition GLFW_KEY_D : nat := 68.
Definition GLFW_KEY_S : nat := 83.
Definition GLFW_KEY_W : nat := 87.

(** [bool keys[1024] = { false }]: the table of the keys held down. *)
Definition KEY_COUNT : nat := 1024.
Definition noKeys : list bool := replicate KEY_COUNT false.

(** [keys] is the global table. The window and the scancode and modifier
    arguments are not used. *)
Definition keyCallback (keys : list bool) (key scancode action mods : Z)
  : list bool :=
  if (0 <=? key) && (key <? 1024) then
    if action =? GLFW_PRESS then <[Z.to_nat key := true]> keys
    else if action =? GLFW_RELEASE then <[Z.to_nat key := false]> keys
    else keys
  else keys.

(** ** mouseButtonCallback *)

(** The global it writes is [isRMBPressed]. *)
Definition mouseButtonCallback (isRMBPressed : bool) (button action mods : Z)
  : bool :=
  if button =? GLFW_MOUSE_BUTTON_RIGHT then
    if action =? GLFW_PRESS then true
    else if action =? GLFW_RELEASE then false
    else isRMBPressed
  else isRMBPressed.

(** ** processInput *)

(** [keys[k]] for a constant [k] below 1024. *)
Definition keyDown (keys : list bool) (k : nat) : bool :=
  default false (keys !! k).

(** [2.5f]. *)
Definition f32_2_5 : F32.float := Eval vm_compute in (F32.of_Z 5 / F32.of_Z 2)%f32.

(** [s * v], scalar first. *)
Definition scaleLeft (s : F32.float) (v : glm.vec3) : glm.vec3 :=
  glm.Vec3 (s * glm.x v)%f32 (s * glm.y v)%f32 (s * glm.z v)%f32.

(** The globals read are [keys], [deltaTime], [cameraFront] and
    [cameraUp]; the one written is [cameraPos], whose new value is
    returned. *)
Definition processInput (keys : list bool) (deltaTime : F32.float)
    (cameraFront cameraUp cameraPos : glm.vec3) : glm.vec3 :=
  let cameraSpeed := (f32_2_5 * deltaTime)%f32 in
  let cameraPos :=
    if keyDown keys GLFW_KEY_W
    then glm.add cameraPos (scaleLeft cameraSpeed cameraFront) else cameraPos in
  let cameraPos :=
    if keyDown keys GLFW_KEY_S
    then glm.sub cameraPos (scaleLeft cameraSpeed cameraFront) else cameraPos in
  let cameraPos :=
    if keyDown keys GLFW_KEY_A
    then glm.sub cameraPos
           (glm.scale (glm.normalize (glm.cross cameraFront cameraUp)) cameraSpeed)
    else cameraPos in
  let cameraPos :=
    if keyDown keys GLFW_KEY_D
    then glm.add cameraPos
           (glm.scale (glm.normalize (glm.cross cameraFront cameraUp)) cameraSpeed)
    else cameraPos in
  cameraPos.

(** ** mouseCallback *)

(** [double] is binary64; the conversions between the two formats round to
    nearest, as the arithmetic does. *)
Module F64.
Definition prec : Z := 53.
Definition emax : Z := 1024.
Definition float : Type := spec_float.
Definition sub : float -> float -> float := SFsub prec emax.
End F64.

(** [float] to [double], in [xpos - lastX]. *)
Definition to_double (f : F32.float) : F64.float :=
  match f with
  | S754_finite s m e => binary_round F64.prec F64.emax s m e
  | _ => f
  end.

(** [double] to [float], in [lastX = xpos] and [float xOffset = ...]. *)
Definition to_float (d : F64.float) : F32.float :=
  match d with
  | S754_finite s m e => binary_round F32.prec F32.emax s m e
  | _ => d
  end.

(** [0.1f], [89.0f] and [-89.0f]. *)
Definition sensitivity : F32.float := Eval vm_compute in (F32.of_Z 1 / F32.of_Z 10)%f32.
Definition pitchMax : F32.float := Eval vm_compute in F32.of_Z 89.
Definition pitchMin : F32.float := Eval vm_compute in F32.of_Z (-89).

(** [glm::radians]: the degrees times the float nearest to pi / 180,
    [9370165 * 2^-29]. *)
Definition radians (degrees : F32.float) : F32.float :=
  (degrees * S754_finite false 9370165 (-29))%f32.

(** The globals the callback reads and writes. In the first file [lastX]
    and [lastY] are statics of the function with the initial values of the
    globals they hide. *)
Record MouseState : Type := mkMouseState {
  firstMouse : bool;
  lastX : F32.float;
  lastY : F32.float;
  yaw : F32.float;
  pitch : F32.float;
  roll : F32.float;
  cameraFront : glm.vec3
}.

(** [pitch += yOffset] followed by the two guarded assignments. *)
Definition clampPitch (pitch : F32.float) : F32.float :=
  let pitch := if (pitch >? pitchMax)%f32 then pitchMax else pitch in
  if (pitch <? pitchMin)%f32 then pitchMin else pitch.

Section Mouse.

(** [cos] and [sin] at a [float] argument, the overloads of [<cmath>],
    which the language does not pin down to the last bit. *)
Variables cosf sinf : F32.float -> F32.float.

(** The callback of the first file. The one of the second file has no
    [isRMBPressed] and no [roll]: it is this one with [isRMBPressed]
    false. *)
Definition mouseCallback (isRMBPressed : bool) (st : MouseState)
    (xpos ypos : F64.float) : MouseState :=
  let lastX0 := if firstMouse st then to_float xpos else lastX st in
  let lastY0 := if firstMouse st then to_float ypos else lastY st in
  let xOffset := to_float (F64.sub xpos (to_double lastX0)) in
  let yOffset := to_float (F64.sub (to_double lastY0) ypos) in
  let xOffset := (xOffset * sensitivity)%f32 in
  let yOffset := (yOffset * sensitivity)%f32 in
  let yaw' := if isRMBPressed then yaw st else (yaw st + xOffset)%f32 in
  let pitch' :=
    if isRMBPressed then pitch st else clampPitch (pitch st + yOffset)%f32 in
  let roll' := if isRMBPressed then (roll st + xOffset)%f32 else roll st in
  let front :=
    glm.Vec3 (cosf (radians yaw') * cosf (radians pitch'))%f32
             (sinf (radians pitch'))
             (sinf (radians yaw') * cosf (radians pitch'))%f32 in
  mkMouseState false (to_float xpos) (to_float ypos) yaw' pitch' roll'
    (glm.normalize front).

End Mouse.

(** The globals as the program starts: [yaw = -90.0f], [pitch = 0.0f],
    the cursor at [(960, 540)], looking along [-z]. *)
Definition mouseState0 : MouseState :=
  mkMouseState true (F32.of_Z 960) (F32.of_Z 540) (F32.of_Z (-90)) F32.zero
    F32.zero (glm.Vec3 F32.zero F32.zero (F32.of_Z (-1))).

(** * Vocabulary of the properties

    Notions the statements below use, and the inputs on which the code is
    run. *)

(** The triangles of a flat index sequence. *)
Fixpoint triangles (indices : list Z) : list (Z * Z * Z) :=
  match indices with
  | i0 :: i1 :: i2 :: rest => (i0, i1, i2) :: triangles rest
  | _ => []
  end.

Definition flatten3 (ts : list (Z * Z * Z)) : list Z :=
  flat_map (fun t => [t.1.1; t.1.2; t.2]) ts.

(** What the loop pushes at counter [i]. *)
Definition emitted (i : nat) : list Z :=
  [to_unsigned i; to_unsigned (i + 1); to_unsigned (i + 2)].

(** The strip over [n] points, as the specification words it: the triples
    [(i, i+1, i+2)] for [i] from [0] to [n-3], in that order. *)
Definition stripTriangles (n : nat) : list (Z * Z * Z) :=
  (fun i => (Z.of_nat i, Z.of_nat i + 1, Z.of_nat i + 2)) <$> seq 0 (n - 2).

Definition stripWindow (n : nat) : list Z := flatten3 (stripTriangles n).

Definition origin : Point := Point.Make F32.zero F32.zero F32.zero.

(** A cloud of [2^32 + 1] points. *)
Definition hugeCloud : list Point := replicate (Z.to_nat (UINT_MODULUS + 1)) origin.

(** The unit square of the specification's concrete case. *)
Definition unitSquare : list Point :=
  [ Point.Make F32.zero F32.zero F32.zero;
    Point.Make F32.one F32.zero F32.zero;
    Point.Make F32.one F32.zero F32.one;
    Point.Make F32.zero F32.zero F32.one ].

Definition inRange (vertices : list Vertex) (i : Z) : Prop :=
  0 <= i < Z.of_nat (length vertices).

(** A flat index sequence a loop can read three at a time. *)
Definition wellFormed (vertices : list Vertex) (indices : list Z) : Prop :=
  Forall (inRange vertices) indices /\ (length indices mod 3 = 0)%nat.

(** The three edge lengths of a triangle, as the filter computes them. *)
Definition edgeLengths (vertices : list Vertex) (t : Z * Z * Z)
  : option (F32.float * F32.float * F32.float) :=
  v0 ← positionAt vertices t.1.1;
  v1 ← positionAt vertices t.1.2;
  v2 ← positionAt vertices t.2;
  Some (glm.distance v0 v1, glm.distance v1 v2, glm.distance v2 v0).

(** All three edges compare strictly below [0.15f]. *)
Definition shortEdged (vertices : list Vertex) (t : Z * Z * Z) : bool :=
  match edgeLengths vertices t with
  | Some (d01, d12, d20) => edgesShort d01 d12 d20
  | None => false
  end.

(** The value [m * 2^e] of a float is strictly below 15/100. *)
Definition belowFifteenHundredths (d : F32.float) : Prop :=
  match d with
  | S754_zero _ => True
  | S754_infinity s => s = true
  | S754_nan => False
  | S754_finite true _ _ => True
  | S754_finite false m e =>
      100 * Z.pos m * 2 ^ Z.max 0 e < 15 * 2 ^ Z.max 0 (- e)
  end.

(** The three edges of the triangle are strictly shorter than 0.15: the
    lengths [glm::distance] computes, taken as the numbers they stand for,
    are below 15/100. *)
Definition edgesBelowThreshold (vertices : list Vertex) (t : Z * Z * Z) : Prop :=
  exists d01 d12 d20,
    edgeLengths vertices t = Some (d01, d12, d20)
    /\ belowFifteenHundredths d01
    /\ belowFifteenHundredths d12
    /\ belowFifteenHundredths d20.

(** The largest finite float. *)
Definition FLT_MAX : F32.float := S754_finite false 16777215 104.

(** The line written for a discarded triangle. *)
Definition removalLine (vertices : list Vertex) (t : Z * Z * Z) : list Diag :=
  match edgeLengths vertices t with
  | Some (d01, d12, d20) =>
      if edgesShort d01 d12 d20 then []
      else [RemovedTriangle t.1.1 t.1.2 t.2 d01 d12 d20]
  | None => []
  end.

(** [0.1f]. *)
Definition f32_tenth : F32.float := Eval vm_compute in (F32.of_Z 1 / F32.of_Z 10)%f32.

(** A small mesh to run the loops on: three vertices close to one another
    and a fourth one far away; two triangles, the second reaching the far
    vertex. *)
Definition sampleVertices : list Vertex :=
  [ mkVertex (glm.Vec3 F32.zero F32.zero F32.zero) glm.zero;
    mkVertex (glm.Vec3 f32_tenth F32.zero F32.zero) glm.zero;
    mkVertex (glm.Vec3 F32.zero F32.zero f32_tenth) glm.zero;
    mkVertex (glm.Vec3 F32.one F32.zero F32.one) glm.zero ].

Definition sampleIndices : list Z := [0; 1; 2; 1; 2; 3].

Definition twoPoints : list Point :=
  [ Point.Make F32.zero F32.zero F32.zero; Point.Make F32.one F32.zero F32.zero ].

(** The triangulator with the sort step removed, as the specification
    words it: no sorted copy, and the emission loop running over the
    counters [0] to [N-3] of the original sequence. *)
Fixpoint emitLoopNoSort (counters : list nat) (indices : list Z) : list Z :=
  match counters with
  | [] => indices
  | i :: counters' =>
      emitLoopNoSort counters'
        (indices ++ [to_unsigned i; to_unsigned (i + 1); to_unsigned (i + 2)])
  end.

Definition triangulateNoSort (points : list Point) (vertices : list Vertex)
    (indices : list Z) : option (list Vertex * list Z * list Diag) :=
  if decide (length points < 3)%nat then
    Some (vertices, indices, [NotEnoughPoints])
  else
    let vertices :=
      fillVertices points 0 (resize (length points) zeroVertex vertices) in
    let indices := emitLoopNoSort (seq 0 (length points - 2)) indices in
    '(filteredIndices, log) ← filterLongEdges vertices indices;
    Some (vertices, filteredIndices,
          log ++ [FilterCompleted (Z.of_nat (length filteredIndices) / 3)]).

(** The vertices of the unit square, none of which an empty index sequence
    names. *)
Definition squareVertices : list Vertex := toVertex <$> unitSquare.

(** Three coincident samples. *)
Definition coincidentPoints : list Point := [origin; origin; origin].

(** [1e-4f] and the test that a magnitude is 1 within that tolerance. *)
Definition tolerance : F32.float :=
  Eval vm_compute in (F32.of_Z 1 / F32.of_Z 10000)%f32.

Definition nearOne (m : F32.float) : bool :=
  SFleb (F32.one - tolerance)%f32 m && SFleb m (F32.one + tolerance)%f32.

(** [1.0f] and the next float above it, [1 + 2^-23]. *)
Definition f32_after_one : F32.float := S754_finite false 8388609 (-23).

Definition nearbyPair : list Point :=
  [ Point.Make F32.one F32.zero F32.zero;
    Point.Make f32_after_one F32.zero F32.zero ].

Definition inUnitRange (f : F32.float) : bool :=
  SFleb (F32.of_Z (-1)) f && SFleb f (F32.of_Z 1).

Definition isPlusMinusOne (f : F32.float) : bool :=
  (f =? F32.of_Z 1)%f32 || (f =? F32.of_Z (-1))%f32.

Definition coordinates (p : Point) : list F32.float :=
  [Point.x p; Point.y p; Point.z p].

(** The function returns nothing and can signal only through what it
    writes: a signal is a line on the console. *)
Definition signalled (result : list Point * list Diag) : Prop :=
  result.2 <> [].

(** ** Vocabulary of the further properties *)

(** Position of a float on a line of integer triples compared
    lexicographically: the order the comparisons of the source follow.
    NaN has no position. *)
Definition orderKey (f : F32.float) : option (Z * Z * Z) :=
  match f with
  | S754_nan => None
  | S754_infinity true => Some (-2, 0, 0)
  | S754_finite true m e => Some (-1, - e, Z.neg m)
  | S754_zero _ => Some (0, 0, 0)
  | S754_finite false m e => Some (1, e, Z.pos m)
  | S754_infinity false => Some (2, 0, 0)
  end.

Definition lexLt (k1 k2 : Z * Z * Z) : Prop :=
  k1.1.1 < k2.1.1
  \/ (k1.1.1 = k2.1.1
      /\ (k1.1.2 < k2.1.2 \/ (k1.1.2 = k2.1.2 /\ k1.2 < k2.2))).

Definition lexCompare (k1 k2 : Z * Z * Z) : comparison :=
  match k1.1.1 ?= k2.1.1 with
  | Eq => match k1.1.2 ?= k2.1.2 with
          | Eq => k1.2 ?= k2.2
          | c => c
          end
  | c => c
  end.

(** [lo] and [hi] are among [xs], and no element of [xs] compares below
    [lo] or above [hi]. *)
Definition encloses (lo hi : F32.float) (xs : list F32.float) : Prop :=
  lo ∈ xs /\ hi ∈ xs
  /\ Forall (fun x => (x <? lo)%f32 = false /\ (x >? hi)%f32 = false) xs.


(** A "Removed triangle" line. *)
Definition isRemovalLine (d : Diag) : Prop :=
  match d with RemovedTriangle _ _ _ _ _ _ => True | _ => False end.

(** Neither point goes before the other for the comparator. *)
Definition incomparable (a b : Point) : Prop :=
  pointLess a b = false /\ pointLess b a = false.

(** The two coordinates the comparator reads are numbers. *)
Definition sortable (p : Point) : Prop :=
  F32.is_nan (Point.x p) = false /\ F32.is_nan (Point.z p) = false.

(** The triangle can be read on [vertices] and the cross product of its
    two edge vectors is a zero vector: its three corners coincide or lie
    on a line, as far as binary32 can tell. *)
Definition degenerate (vertices : list Vertex) (t : Z * Z * Z) : Prop :=
  exists v0 v1 v2,
    positionAt vertices t.1.1 = Some v0
    /\ positionAt vertices t.1.2 = Some v1
    /\ positionAt vertices t.2 = Some v2
    /\ glm.is_zero (glm.cross (glm.sub v1 v0) (glm.sub v2 v0)) = true.

(** The sample mesh with other normals. *)
Definition sampleVerticesLit : list Vertex :=
  set_normal (glm.Vec3 F32.one F32.two F32.nan) <$> sampleVertices.

(** Three vertices on a line and one off it. *)
Definition lineVertices : list Vertex :=
  [ mkVertex (glm.Vec3 F32.zero F32.zero F32.zero) glm.zero;
    mkVertex (glm.Vec3 F32.one F32.zero F32.zero) glm.zero;
    mkVertex (glm.Vec3 F32.two F32.zero F32.zero) glm.zero;
    mkVertex (glm.Vec3 F32.zero F32.zero F32.one) glm.zero ].

(** The normal of vertex [j] is NaN in its three components. *)
Definition poisoned (vertices : list Vertex) (j : nat) : Prop :=
  normal <$> vertices !! j = Some glm.all_nan.

(** A zero of either sign, or NaN: what a product with a zero factor can
    be. *)
Definition zeroOrNaN (f : F32.float) : Prop :=
  F32.is_zero f = true \/ F32.is_nan f = true.

(** A cursor coordinate that is a number and that the conversion to
    [float] keeps as it is. *)
Definition exactFloat (d : F64.float) : Prop :=
  match d with S754_finite _ _ _ | S754_zero _ => True | _ => False end
  /\ to_double (to_float d) = d.

Definition negativeZero : F32.float := S754_zero true.

(** A state in the middle of a session: the cursor was last seen at
    [(960, 540)]. *)
Definition mouseState1 : MouseState :=
  mkMouseState false (F32.of_Z 960) (F32.of_Z 540) (F32.of_Z (-90)) F32.zero
    F32.zero (glm.Vec3 F32.zero F32.zero (F32.of_Z (-1))).

(** The pitch is neither above 89 nor below -89. *)
Definition pitchInRange (pitch : F32.float) : Prop :=
  (pitch >? pitchMax)%f32 = false /\ (pitch <? pitchMin)%f32 = false.

(** * Properties *)

(** ** Lists read three at a time *)

Lemma triangles_flatten3 ts : triangles (flatten3 ts) = ts.
Proof.
  induction ts as [|[[a b] c] ts IH]; [done|].
  change (triangles (flatten3 ((a, b, c) :: ts)))
    with ((a, b, c) :: triangles (flatten3 ts)).
  by rewrite IH.
Qed.

Lemma length_flatten3 ts : length (flatten3 ts) = (3 * length ts)%nat.
Proof.
  induction ts as [|t ts IH]; [done|].
  change (flatten3 (t :: ts)) with ([t.1.1; t.1.2; t.2] ++ flatten3 ts).
  rewrite length_app, IH. cbn [length]. lia.
Qed.

Lemma Forall_flatten3 (P : Z -> Prop) ts :
  Forall (fun t => P t.1.1 /\ P t.1.2 /\ P t.2) ts -> Forall P (flatten3 ts).
Proof.
  induction 1 as [|t ts (H0 & H1 & H2) _ IH]; [constructor|].
  cbn. by repeat constructor.
Qed.

(** Two maps into triples that agree after flattening agree pointwise. *)
Lemma flat_map_triple_inj {A : Type} (f g : A -> list Z) (l : list A) :
  (forall a, length (f a) = 3%nat) -> (forall a, length (g a) = 3%nat) ->
  flat_map f l = flat_map g l ->
  forall a, a ∈ l -> f a = g a.
Proof.
  intros Hf Hg. induction l as [|b l IH]; intros Heq a Ha.
  - by apply elem_of_nil in Ha.
  - cbn [flat_map] in Heq.
    apply app_inj_1 in Heq as [Hb Hl]; [|by rewrite Hf, Hg].
    apply elem_of_cons in Ha as [->|Ha]; [done|by apply IH].
Qed.

Lemma flat_map_agree {A B : Type} (f g : A -> list B) (l : list A) :
  (forall a, a ∈ l -> f a = g a) -> flat_map f l = flat_map g l.
Proof.
  induction l as [|b l IH]; intros H; [done|].
  cbn [flat_map]. rewrite (H b) by left.
  rewrite IH; [done|]. intros a Ha. apply H. by right.
Qed.

Lemma flat_map_map {A B C : Type} (f : B -> list C) (h : A -> B) (l : list A) :
  flat_map f (h <$> l) = flat_map (fun a => f (h a)) l.
Proof.
  induction l as [|a l IH]; [done|].
  rewrite fmap_cons. cbn [flat_map]. by rewrite IH.
Qed.

(** ** The sort keeps the number of points *)

Lemma length_insertBy less a l : length (insertBy less a l) = S (length l).
Proof.
  induction l as [|b l IH]; [done|].
  cbn [insertBy]. destruct (less a b); cbn [length]; [done|by rewrite IH].
Qed.

Lemma length_std_sort less l : length (std_sort less l) = length l.
Proof.
  induction l as [|a l IH]; [done|].
  cbn [std_sort foldr]. fold (std_sort less l).
  by rewrite length_insertBy, IH.
Qed.

(** ** The emission loop *)

Lemma emitTriple_in_range sortedPoints i indices :
  (i + 2 < length sortedPoints)%nat ->
  emitTriple sortedPoints i indices = Some (indices ++ emitted i).
Proof.
  intros Hi. unfold emitTriple.
  destruct (lookup_lt_is_Some_2 sortedPoints i) as [p0 ->]; [lia|].
  destruct (lookup_lt_is_Some_2 sortedPoints (i + 1)) as [p1 ->]; [lia|].
  destruct (lookup_lt_is_Some_2 sortedPoints (i + 2)) as [p2 ->]; [lia|].
  done.
Qed.

Lemma emitLoop_in_range sortedPoints counters indices :
  Forall (fun i => i + 2 < length sortedPoints)%nat counters ->
  emitLoop sortedPoints counters indices
  = Some (indices ++ flat_map emitted counters).
Proof.
  intros H. revert indices.
  induction H as [|i counters Hi _ IH]; intros indices.
  - cbn. by rewrite app_nil_r.
  - cbn [emitLoop flat_map]. rewrite emitTriple_in_range by done.
    cbn [mbind option_bind]. rewrite IH. by rewrite <- app_assoc.
Qed.

(** The candidates depend on the sorted copy through its length only. *)
Lemma generateCandidates_length sortedPoints indices :
  (2 <= length sortedPoints)%nat ->
  generateCandidates sortedPoints indices
  = Some (indices ++ flat_map emitted (seq 0 (length sortedPoints - 2))).
Proof.
  intros Hn. unfold generateCandidates.
  destruct (decide (length sortedPoints < 2)%nat) as [?|_]; [lia|].
  apply emitLoop_in_range, Forall_forall.
  intros i Hi%elem_of_seq. lia.
Qed.

Lemma UINT_MODULUS_eq : UINT_MODULUS = 4294967296.
Proof. reflexivity. Qed.

Lemma to_unsigned_small (i : nat) :
  Z.of_nat i < UINT_MODULUS -> to_unsigned i = Z.of_nat i.
Proof. intros Hi. unfold to_unsigned. apply Z.mod_small. lia. Qed.

Lemma to_unsigned_range (i : nat) : 0 <= to_unsigned i <= Z.of_nat i.
Proof.
  unfold to_unsigned, UINT_MODULUS. split.
  - apply Z.mod_pos_bound. lia.
  - apply Z.mod_le; lia.
Qed.

Lemma emitted_stripWindow (n : nat) :
  Z.of_nat n <= UINT_MODULUS ->
  flat_map emitted (seq 0 (n - 2)) = stripWindow n.
Proof.
  intros Hn. unfold stripWindow, stripTriangles, flatten3.
  rewrite flat_map_map.
  apply flat_map_agree. intros i Hi%elem_of_seq. unfold emitted.
  rewrite !to_unsigned_small by lia.
  cbn [fst snd]. repeat f_equal; lia.
Qed.

Lemma length_stripTriangles n : length (stripTriangles n) = (n - 2)%nat.
Proof. unfold stripTriangles. by rewrite length_fmap, length_seq. Qed.

(** ** C1: candidate generation *)

(** Past [2^32] points the last counters no longer fit an [unsigned int]:
    what is pushed is not the strip. *)
Lemma candidates_wrap_around sortedPoints :
  UINT_MODULUS < Z.of_nat (length sortedPoints) ->
  generateCandidates sortedPoints []
  <> Some (stripWindow (length sortedPoints)).
Proof.
  intros Hn.
  assert (Hex : exists i : nat, Z.of_nat i = UINT_MODULUS - 2).
  { exists (Z.to_nat (UINT_MODULUS - 2)). rewrite UINT_MODULUS_eq. lia. }
  destruct Hex as [i Hival].
  rewrite UINT_MODULUS_eq in Hn, Hival.
  rewrite generateCandidates_length by lia.
  rewrite app_nil_l. intros [= Heq].
  unfold stripWindow, stripTriangles, flatten3 in Heq.
  rewrite flat_map_map in Heq.
  assert (Hi : i ∈ seq 0 (length sortedPoints - 2)).
  { apply elem_of_seq. lia. }
  pose proof (fun Hf Hg => flat_map_triple_inj _ _ _ Hf Hg Heq i Hi) as Hpt.
  specialize (Hpt (fun _ => eq_refl) (fun _ => eq_refl)).
  clear Heq Hi. unfold emitted in Hpt. cbn [fst snd] in Hpt.
  injection Hpt as _ _ H2. revert H2.
  unfold to_unsigned. rewrite UINT_MODULUS_eq.
  replace (Z.of_nat (i + 2)) with (1 * 4294967296) by lia.
  rewrite Z.mod_mul by lia. lia.
Qed.

(** C1, as stated, fails on a cloud of [2^32 + 1] points: the candidate
    pass on it does not emit the triples [(i, i+1, i+2)] for [i] from [0]
    to [N-3]. *)
Lemma candidates_not_strip_on_hugeCloud :
  (3 <= length hugeCloud)%nat /\
  generateCandidates (std_sort pointLess hugeCloud) []
  <> Some (stripWindow (length hugeCloud)).
Proof.
  assert (Hlen : Z.of_nat (length hugeCloud) = 4294967297).
  { unfold hugeCloud. rewrite length_replicate, UINT_MODULUS_eq. lia. }
  split; [lia|].
  rewrite <- (length_std_sort pointLess hugeCloud).
  apply candidates_wrap_around.
  rewrite length_std_sort, UINT_MODULUS_eq. lia.
Qed.

(** C1, amended: for every point sequence of length [N] with
    [3 <= N <= 2^32], the candidate pass run on the sorted copy emits
    exactly the [N-2] triples [(i, i+1, i+2)], [i] from [0] to [N-3], in
    that order; every index is a position of the original sequence; and
    the same indices are emitted when the unsorted points are given
    instead of the sorted copy. *)
Theorem candidates_strip_window (points : list Point) :
  (3 <= length points)%nat ->
  Z.of_nat (length points) <= UINT_MODULUS ->
  generateCandidates (std_sort pointLess points) []
  = Some (stripWindow (length points))
  /\ length (stripTriangles (length points)) = (length points - 2)%nat
  /\ Forall (fun i => 0 <= i < Z.of_nat (length points))
            (stripWindow (length points))
  /\ generateCandidates (std_sort pointLess points) []
     = generateCandidates points [].
Proof.
  intros H3 Hmax. repeat split.
  - rewrite generateCandidates_length by (rewrite length_std_sort; lia).
    rewrite length_std_sort, app_nil_l. by rewrite emitted_stripWindow.
  - apply length_stripTriangles.
  - apply Forall_flatten3, Forall_forall. unfold stripTriangles.
    intros t (i & -> & Hi%elem_of_seq)%list_elem_of_fmap.
    cbn [fst snd]. lia.
  - rewrite !generateCandidates_length by (rewrite ?length_std_sort; lia).
    by rewrite length_std_sort.
Qed.

Lemma candidates_strip_window_unitSquare :
  generateCandidates (std_sort pointLess unitSquare) []
  = Some (stripWindow (length unitSquare))
  /\ length (stripTriangles (length unitSquare)) = (length unitSquare - 2)%nat
  /\ Forall (fun i => 0 <= i < Z.of_nat (length unitSquare))
            (stripWindow (length unitSquare))
  /\ generateCandidates (std_sort pointLess unitSquare) []
     = generateCandidates unitSquare [].
Proof.
  apply (candidates_strip_window unitSquare).
  - cbn. lia.
  - vm_compute. discriminate.
Defined.

(** ** Vertices built from the points *)

Lemma length_resize {A : Type} (n : nat) (d : A) (l : list A) :
  length (resize n d l) = n.
Proof. unfold resize. rewrite length_app, length_take, length_replicate. lia. Qed.

Lemma fillVertices_app points : forall pre rest,
  length rest = length points ->
  fillVertices points (length pre) (pre ++ rest) = pre ++ (toVertex <$> points).
Proof.
  induction points as [|p ps IH]; intros pre rest Hlen.
  - destruct rest; [done|discriminate].
  - destruct rest as [|r rest]; [discriminate|].
    cbn [fillVertices]. rewrite insert_app_r_alt by lia.
    rewrite Nat.sub_diag. cbn [insert list_insert].
    rewrite fmap_cons, !(cons_middle (toVertex p) pre), !app_assoc.
    replace (S (length pre)) with (length (pre ++ [toVertex p]))
      by (rewrite length_app; cbn; lia).
    apply IH. by injection Hlen.
Qed.

(** Whatever [vertices] held on entry, it ends up as the points, one
    vertex per point and in the same order, with zero normals. *)
Lemma fillVertices_resize points vertices :
  fillVertices points 0 (resize (length points) zeroVertex vertices)
  = toVertex <$> points.
Proof.
  apply (fillVertices_app points []). apply length_resize.
Qed.

(** ** Induction three elements at a time *)

Lemma list_ind3 {A : Type} (P : list A -> Prop) :
  P [] -> (forall a, P [a]) -> (forall a b, P [a; b]) ->
  (forall a b c l, P l -> P (a :: b :: c :: l)) ->
  forall l, P l.
Proof.
  intros H0 H1 H2 H3.
  assert (Hall : forall l, P l /\ (forall a, P (a :: l)) /\ (forall a b, P (a :: b :: l))).
  { induction l as [|c l (IH0 & IH1 & IH2)]; [by auto|].
    split; [apply IH1|]. split; [intros a; apply IH2|]. intros a b. by apply H3. }
  intros l. apply Hall.
Qed.

(** ** The edge-length filter *)

Lemma positionAt_inRange vertices i :
  inRange vertices i -> is_Some (positionAt vertices i).
Proof.
  intros [H0 H1]. unfold positionAt.
  destruct (lookup_lt_is_Some_2 vertices (Z.to_nat i)) as [v ->]; [lia|].
  by eexists.
Qed.

Lemma mod3_cons3 (n : nat) : (S (S (S n)) mod 3 = n mod 3)%nat.
Proof.
  change (S (S (S n))) with (1 * 3 + n)%nat.
  rewrite Nat.add_comm. apply Nat.Div0.mod_add.
Qed.

Lemma wellFormed_cons3 vertices a b c l :
  wellFormed vertices (a :: b :: c :: l) <->
  inRange vertices a /\ inRange vertices b /\ inRange vertices c
  /\ wellFormed vertices l.
Proof.
  unfold wellFormed. rewrite !Forall_cons. cbn [length]. rewrite mod3_cons3.
  tauto.
Qed.

Lemma wellFormed_flatten3 vertices ts :
  Forall (fun t => inRange vertices t.1.1 /\ inRange vertices t.1.2
                   /\ inRange vertices t.2) ts ->
  wellFormed vertices (flatten3 ts).
Proof.
  intros H. split; [by apply Forall_flatten3|].
  rewrite length_flatten3, Nat.mul_comm. apply Nat.Div0.mod_mul.
Qed.

Lemma wellFormed_triangles vertices indices :
  wellFormed vertices indices ->
  indices = flatten3 (triangles indices)
  /\ Forall (fun t => inRange vertices t.1.1 /\ inRange vertices t.1.2
                      /\ inRange vertices t.2) (triangles indices).
Proof.
  induction indices as [|a|a b|a b c l IH] using list_ind3.
  - by split.
  - intros [_ H]. discriminate H.
  - intros [_ H]. discriminate H.
  - intros (Ha & Hb & Hc & Hl)%wellFormed_cons3.
    destruct (IH Hl) as [Heq Hts]. split.
    + change (flatten3 (triangles (a :: b :: c :: l)))
        with (a :: b :: c :: flatten3 (triangles l)).
      by rewrite <- Heq.
    + cbn [triangles]. by constructor.
Qed.

Lemma filterLoop_wellFormed vertices indices :
  wellFormed vertices indices ->
  forall filteredIndices log,
    filterLoop vertices indices filteredIndices log
    = Some (filteredIndices
              ++ flatten3 (List.filter (shortEdged vertices) (triangles indices)),
            log ++ flat_map (removalLine vertices) (triangles indices)).
Proof.
  induction indices as [|a|a b|a b c l IH] using list_ind3.
  - intros _ acc log. cbn. by rewrite !app_nil_r.
  - intros [_ H]. discriminate H.
  - intros [_ H]. discriminate H.
  - intros (Ha & Hb & Hc & Hl)%wellFormed_cons3 acc log.
    destruct (positionAt_inRange _ _ Ha) as [v0 E0].
    destruct (positionAt_inRange _ _ Hb) as [v1 E1].
    destruct (positionAt_inRange _ _ Hc) as [v2 E2].
    cbn [filterLoop triangles List.filter flat_map].
    unfold shortEdged, removalLine, edgeLengths. cbn [fst snd].
    rewrite E0, E1, E2. cbn [mbind option_bind].
    destruct (edgesShort _ _ _).
    + rewrite (IH Hl). cbn [app]. f_equal. f_equal.
      change (flatten3 ((a, b, c) :: ?ts)) with ([a; b; c] ++ flatten3 ts).
      by rewrite app_assoc.
    + rewrite (IH Hl). f_equal. f_equal. by rewrite <- app_assoc.
Qed.

(** ** The threshold [0.15f] *)

Example maxEdgeLength_rounds_fifteen_hundredths :
  (F32.of_Z 15 / F32.of_Z 100)%f32 = maxEdgeLength.
Proof. reflexivity. Qed.

Lemma digits2_pos_bounds (m : positive) :
  2 ^ (Z.pos (digits2_pos m) - 1) <= Z.pos m < 2 ^ Z.pos (digits2_pos m).
Proof.
  induction m as [m IH|m IH|]; cbn [digits2_pos].
  - rewrite Pos2Z.inj_succ.
    replace (Z.succ (Z.pos (digits2_pos m)) - 1)
      with (Z.succ (Z.pos (digits2_pos m) - 1)) by lia.
    rewrite !Z.pow_succ_r by lia. lia.
  - rewrite Pos2Z.inj_succ.
    replace (Z.succ (Z.pos (digits2_pos m)) - 1)
      with (Z.succ (Z.pos (digits2_pos m) - 1)) by lia.
    rewrite !Z.pow_succ_r by lia. lia.
  - cbn. lia.
Qed.

Lemma Zdigits2_bounds (m : Z) :
  0 < m -> 0 < Zdigits2 m /\ 2 ^ (Zdigits2 m - 1) <= m < 2 ^ Zdigits2 m.
Proof.
  destruct m as [|p|p]; try lia. intros _. cbn [Zdigits2].
  split; [lia|apply digits2_pos_bounds].
Qed.

Lemma Zdigits2_unique (m k : Z) :
  0 < m -> 2 ^ (k - 1) <= m < 2 ^ k -> Zdigits2 m = k.
Proof.
  intros Hm [Hlo Hhi].
  destruct (Zdigits2_bounds m Hm) as (Hd & Hdlo & Hdhi).
  assert (0 < k).
  { destruct (Z.lt_trichotomy 0 k) as [|[<-|Hneg]]; [done| |].
    - change (2 ^ 0) with 1 in Hhi. lia.
    - rewrite Z.pow_neg_r in Hhi by lia. lia. }
  destruct (Z.lt_trichotomy (Zdigits2 m) k) as [Hlt|[Heq|Hgt]]; [|done|].
  - assert (2 ^ Zdigits2 m <= 2 ^ (k - 1)) by (apply Z.pow_le_mono_r; lia). lia.
  - assert (2 ^ k <= 2 ^ (Zdigits2 m - 1)) by (apply Z.pow_le_mono_r; lia). lia.
Qed.

Lemma Zdigits2_nonneg m : 0 <= Zdigits2 m.
Proof. destruct m; cbn; lia. Qed.

Lemma Zdigits2_mono (a b : Z) : 0 <= a <= b -> Zdigits2 a <= Zdigits2 b.
Proof.
  intros [Ha Hab]. destruct (Z.eq_dec a 0) as [->|Hne].
  - apply Zdigits2_nonneg.
  - destruct (Zdigits2_bounds a) as (_ & Halo & _); [lia|].
    destruct (Zdigits2_bounds b) as (_ & _ & Hbhi); [lia|].
    destruct (Z.le_gt_cases (Zdigits2 a) (Zdigits2 b)) as [|Hgt]; [done|].
    assert (2 ^ Zdigits2 b <= 2 ^ (Zdigits2 a - 1)).
    { apply Z.pow_le_mono_r; [lia|]. lia. }
    lia.
Qed.

Lemma Zdigits2_shift (m n : Z) :
  0 < m -> 0 <= n ->
  (n < Zdigits2 m -> 0 < m / 2 ^ n /\ Zdigits2 (m / 2 ^ n) = Zdigits2 m - n)
  /\ (Zdigits2 m <= n -> m / 2 ^ n = 0).
Proof.
  intros Hm Hn.
  destruct (Zdigits2_bounds m Hm) as (Hd & Hlo & Hhi).
  assert (Hpn : 0 < 2 ^ n) by (apply Z.pow_pos_nonneg; lia).
  split.
  - intros Hlt.
    assert (Hq : 2 ^ (Zdigits2 m - n - 1) <= m / 2 ^ n < 2 ^ (Zdigits2 m - n)).
    { split.
      - apply Z.div_le_lower_bound; [done|].
        rewrite <- Z.pow_add_r by lia.
        replace (n + (Zdigits2 m - n - 1)) with (Zdigits2 m - 1) by lia. done.
      - apply Z.div_lt_upper_bound; [done|].
        rewrite <- Z.pow_add_r by lia.
        replace (n + (Zdigits2 m - n)) with (Zdigits2 m) by lia. done. }
    assert (0 < 2 ^ (Zdigits2 m - n - 1)) by (apply Z.pow_pos_nonneg; lia).
    split; [lia|]. apply Zdigits2_unique; [lia|done].
  - intros Hge. apply Z.div_small. split; [lia|].
    eapply Z.lt_le_trans; [exact Hhi|]. apply Z.pow_le_mono_r; lia.
Qed.

(** [shr_1] halves the mantissa; [shr] by [n] divides it by [2^n]. *)
Lemma shr_1_m mrs : 0 <= shr_m mrs -> shr_m (shr_1 mrs) = shr_m mrs / 2.
Proof.
  destruct mrs as [m r s]. cbn [shr_m]. intros Hm.
  rewrite <- Z.div2_div.
  destruct m as [|[p|p|]|p]; try reflexivity; lia.
Qed.

Lemma iter_shr_1_m (p : positive) : forall mrs,
  0 <= shr_m mrs ->
  shr_m (SpecFloat.iter_pos shr_1 p mrs) = shr_m mrs / 2 ^ Z.pos p.
Proof.
  assert (Hnn : forall mrs, 0 <= shr_m mrs -> 0 <= shr_m (shr_1 mrs)).
  { intros mrs H. rewrite shr_1_m by done. apply Z.div_pos; lia. }
  induction p as [p IH|p IH|]; intros mrs Hm; cbn [SpecFloat.iter_pos].
  - assert (0 < 2 ^ Z.pos p) by (apply Z.pow_pos_nonneg; lia).
    rewrite IH, IH, shr_1_m; auto.
    + rewrite !Z.div_div by lia. f_equal.
      replace (Z.pos p~1) with (1 + Z.pos p + Z.pos p) by lia.
      rewrite !Z.pow_add_r by lia. change (2 ^ 1) with 2. ring.
    + rewrite IH by auto. apply Z.div_pos; [auto|lia].
  - assert (0 < 2 ^ Z.pos p) by (apply Z.pow_pos_nonneg; lia).
    rewrite IH, IH; auto.
    + rewrite !Z.div_div by lia. f_equal.
      replace (Z.pos p~0) with (Z.pos p + Z.pos p) by lia.
      rewrite !Z.pow_add_r by lia. ring.
    + rewrite IH by auto. apply Z.div_pos; [auto|lia].
  - rewrite shr_1_m by done. reflexivity.
Qed.

Lemma fexp_eq e : fexp F32.prec F32.emax e = Z.max (e - 24) (-149).
Proof. reflexivity. Qed.

Lemma shr_m_record_of_loc m l : shr_m (shr_record_of_loc m l) = m.
Proof. by destruct l as [|[]]. Qed.

Lemma shr_spec mrs e n :
  0 <= shr_m mrs ->
  shr_m (shr mrs e n).1 = shr_m mrs / 2 ^ Z.max 0 n
  /\ (shr mrs e n).2 = e + Z.max 0 n.
Proof.
  intros Hm. destruct n as [|p|p]; cbn [shr fst snd].
  - change (2 ^ Z.max 0 0) with 1. rewrite Z.div_1_r. lia.
  - rewrite iter_shr_1_m by done. rewrite Z.max_r by lia. done.
  - rewrite Z.max_l by lia. change (2 ^ 0) with 1. rewrite Z.div_1_r. lia.
Qed.

(** When the exponent is not above the canonical one, [shr_fexp] returns
    a canonical mantissa, or zero at the least exponent. *)
Lemma shr_fexp_canonical m e l :
  0 <= m -> e <= fexp F32.prec F32.emax (Zdigits2 m + e) ->
  let r := shr_fexp F32.prec F32.emax m e l in
  0 <= shr_m r.1
  /\ (0 < shr_m r.1 -> fexp F32.prec F32.emax (Zdigits2 (shr_m r.1) + r.2) = r.2)
  /\ (shr_m r.1 = 0 -> r.2 = -149).
Proof.
  intros Hm He r. unfold shr_fexp in r.
  set (n := fexp F32.prec F32.emax (Zdigits2 m + e) - e) in *.
  destruct (shr_spec (shr_record_of_loc m l) e n) as [Hsm Hse].
  { by rewrite shr_m_record_of_loc. }
  rewrite shr_m_record_of_loc in Hsm. fold r in Hsm, Hse.
  rewrite Hsm, Hse. rewrite Z.max_r by lia.
  assert (Hpn : 0 < 2 ^ n) by (apply Z.pow_pos_nonneg; lia).
  split; [apply Z.div_pos; lia|].
  destruct (Z.eq_dec m 0) as [->|Hne].
  - rewrite Z.div_0_l by lia. split; [lia|]. intros _.
    unfold n in *. rewrite fexp_eq in *. change (Zdigits2 0) with 0 in *. lia.
  - destruct (Zdigits2_shift m n) as [Hin Hout]; [lia..|].
    destruct (Z.lt_ge_cases n (Zdigits2 m)) as [Hlt|Hge].
    + destruct (Hin Hlt) as [Hpos Hd]. split; [|lia]. intros _.
      rewrite Hd.
      replace (Zdigits2 m - n + (e + n)) with (Zdigits2 m + e) by lia.
      unfold n. lia.
    + rewrite (Hout Hge). split; [lia|]. intros _.
      unfold n in *. rewrite fexp_eq in *. lia.
Qed.

Lemma round_nearest_even_range m l :
  m <= round_nearest_even m l <= m + 1.
Proof.
  destruct l as [|[]]; cbn [round_nearest_even]; try lia.
  destruct (Z.even m); lia.
Qed.

Lemma binary_round_aux_valid sx m e l :
  0 <= m -> e <= fexp F32.prec F32.emax (Zdigits2 m + e) ->
  valid_binary F32.prec F32.emax (binary_round_aux F32.prec F32.emax sx m e l) = true.
Proof.
  intros Hm He. unfold binary_round_aux.
  pose proof (shr_fexp_canonical m e l Hm He) as H1. cbv zeta in H1.
  destruct (shr_fexp F32.prec F32.emax m e l) as [mrs1 e1]. cbn [fst snd] in H1.
  destruct H1 as (Hnn1 & Hcan1 & Hz1).
  set (mr := round_nearest_even (shr_m mrs1) (loc_of_shr_record mrs1)).
  pose proof (round_nearest_even_range (shr_m mrs1) (loc_of_shr_record mrs1)) as Hr.
  fold mr in Hr.
  assert (He1 : e1 <= fexp F32.prec F32.emax (Zdigits2 mr + e1)).
  { destruct (Z.eq_dec (shr_m mrs1) 0) as [H0|Hne].
    - rewrite (Hz1 H0), fexp_eq. lia.
    - assert (Hpos : 0 < shr_m mrs1) by lia.
      pose proof (Zdigits2_mono (shr_m mrs1) mr ltac:(lia)) as Hmono.
      specialize (Hcan1 Hpos). rewrite fexp_eq in *. lia. }
  pose proof (shr_fexp_canonical mr e1 loc_Exact ltac:(lia) He1) as H2. cbv zeta in H2.
  destruct (shr_fexp F32.prec F32.emax mr e1 loc_Exact) as [mrs2 e2]. cbn [fst snd] in H2.
  destruct H2 as (Hnn2 & Hcan2 & _).
  destruct (shr_m mrs2) as [|m2|m2]; [done| |done].
  destruct (Z.leb e2 (F32.emax - F32.prec)) eqn:Hle; [|done].
  cbn [valid_binary]. unfold bounded, canonical_mantissa.
  rewrite Hle, andb_true_r. apply Z.eqb_eq.
  apply (Hcan2 ltac:(lia)).
Qed.

Lemma Zdigits2_mul_pow2 m s :
  0 < m -> 0 <= s -> Zdigits2 (m * 2 ^ s) = Zdigits2 m + s.
Proof.
  intros Hm Hs. destruct (Zdigits2_bounds m Hm) as (Hd & Hlo & Hhi).
  assert (0 < 2 ^ s) by (apply Z.pow_pos_nonneg; lia).
  apply Zdigits2_unique; [nia|].
  replace (Zdigits2 m + s - 1) with (Zdigits2 m - 1 + s) by lia.
  rewrite !Z.pow_add_r by lia. nia.
Qed.

Lemma Zdigits2_sqrt m :
  0 < m -> (Zdigits2 m + 1) / 2 <= Zdigits2 (Z.sqrt m).
Proof.
  intros Hm. destruct (Zdigits2_bounds m Hm) as (Hd & Hlo & Hhi).
  set (D := Zdigits2 m) in *. set (K := (D + 1) / 2).
  assert (HK : 2 * K <= D + 1 /\ 1 <= K).
  { unfold K. split; [apply Z.mul_div_le; lia|].
    apply Z.div_le_lower_bound; lia. }
  assert (Hq : 2 ^ (K - 1) <= Z.sqrt m).
  { apply Z.sqrt_le_square; [lia|apply Z.pow_nonneg; lia|].
    rewrite <- Z.pow_add_r by lia.
    eapply Z.le_trans; [|exact Hlo]. apply Z.pow_le_mono_r; lia. }
  assert (0 < 2 ^ (K - 1)) by (apply Z.pow_pos_nonneg; lia).
  destruct (Zdigits2_bounds (Z.sqrt m)) as (_ & _ & Hshi); [lia|].
  destruct (Z.le_gt_cases K (Zdigits2 (Z.sqrt m))) as [|Hgt]; [done|].
  assert (2 ^ Zdigits2 (Z.sqrt m) <= 2 ^ (K - 1)).
  { apply Z.pow_le_mono_r; lia. }
  lia.
Qed.

Lemma SFsqrt_valid x : valid_binary F32.prec F32.emax (SFsqrt F32.prec F32.emax x) = true.
Proof.
  destruct x as [s|[|]| |[|] mx ex]; try done.
  unfold SFsqrt, SFsqrt_core_binary.
  set (d := Zdigits2 (Z.pos mx)).
  set (e' := Z.min (fexp F32.prec F32.emax (Z.div2 (d + ex + 1))) (Z.div2 ex)).
  set (s := ex - 2 * e').
  assert (Hs : 0 <= s).
  { unfold s, e'. rewrite (Z.div2_div ex).
    pose proof (Z.mul_div_le ex 2 ltac:(lia)). lia. }
  set (m' := match s with Z.pos _ => Z.shiftl (Z.pos mx) s | 0 => Z.pos mx | Z.neg _ => 0 end).
  assert (Hm' : m' = Z.pos mx * 2 ^ s).
  { unfold m'. destruct s as [|p|p].
    - change (2 ^ 0) with 1. lia.
    - apply Z.shiftl_mul_pow2. lia.
    - lia. }
  assert (Hpos : 0 < m').
  { rewrite Hm'. apply Z.mul_pos_pos; [lia|]. apply Z.pow_pos_nonneg; lia. }
  pose proof (Z.sqrtrem_sqrt m') as Hsq.
  destruct (Z.sqrtrem m') as [q r]. cbn [fst] in Hsq. subst q.
  apply binary_round_aux_valid; [apply Z.sqrt_nonneg|].
  pose proof (Zdigits2_sqrt m' Hpos) as Hdig.
  rewrite Hm', Zdigits2_mul_pow2 in Hdig by lia. fold d in Hdig.
  rewrite <- Hm' in Hdig.
  assert (HK : (d + s + 1) / 2 = Z.div2 (d + ex + 1) - e').
  { rewrite Z.div2_div. unfold s.
    replace (d + (ex - 2 * e') + 1) with (d + ex + 1 + (- e') * 2) by lia.
    rewrite Z.div_add by lia. lia. }
  rewrite HK in Hdig.
  assert (He' : e' <= fexp F32.prec F32.emax (Z.div2 (d + ex + 1))) by apply Z.le_min_l.
  rewrite fexp_eq in *. lia.
Qed.

Lemma sqrt_valid (x : F32.float) : F32.valid (F32.sqrt x) = true.
Proof. apply SFsqrt_valid. Qed.

Lemma distance_valid (p0 p1 : glm.vec3) : F32.valid (glm.distance p0 p1) = true.
Proof. apply sqrt_valid. Qed.

(** [0.15f] lies above 0.15 and no binary32 value lies between the two:
    for a value of the format, comparing below [0.15f] is being below
    0.15. *)
Lemma ltb_maxEdgeLength (d : F32.float) :
  F32.valid d = true ->
  (d <? maxEdgeLength)%f32 = true <-> belowFifteenHundredths d.
Proof.
  destruct d as [s|s| |s m e]; intros Hv.
  - split; [intros _; exact I|reflexivity].
  - destruct s; split; (reflexivity || discriminate).
  - split; [discriminate|intros []].
  - destruct s; [split; [intros _; exact I|reflexivity]|].
    unfold F32.valid, valid_binary, bounded, canonical_mantissa, fexp, emin,
      F32.prec, F32.emax in Hv.
    apply andb_prop in Hv as [Hc%Z.eqb_eq He%Z.leb_le].
    pose proof (digits2_pos_bounds m) as [Hlo Hhi].
    set (d := Z.pos (digits2_pos m)) in *.
    unfold F32.ltb, SFltb, maxEdgeLength, SFcompare, belowFifteenHundredths.
    destruct (Z.compare_spec e (-26)) as [->|Hlt|Hgt].
    + clear Hc Hhi He Hlo.
      rewrite Pos.compare_cont_spec. unfold Pos.switch_Eq.
      change (Z.max 0 (-26)) with 0. change (Z.max 0 (- -26)) with 26.
      change (2 ^ 0) with 1. change (2 ^ 26) with 67108864.
      rewrite Z.mul_1_r.
      destruct (Pos.compare_spec m 10066330) as [->|H%Pos2Z.pos_lt_pos|H%Pos2Z.pos_lt_pos].
      * split; [discriminate|intros H; lia].
      * split; [intros _; lia|reflexivity].
      * split; [discriminate|intros H'; lia].
    + split; [intros _|reflexivity].
      assert (Z.pos m < 2 ^ 24).
      { eapply Z.lt_le_trans; [exact Hhi|]. apply Z.pow_le_mono_r; lia. }
      rewrite Z.max_l by lia. rewrite Z.max_r by lia.
      assert (2 ^ 27 <= 2 ^ (- e)) by (apply Z.pow_le_mono_r; lia).
      change (2 ^ 0) with 1. change (2 ^ 24) with 16777216 in *.
      change (2 ^ 27) with 134217728 in *. lia.
    + split; [discriminate|]. intros Hb. exfalso.
      assert (d = 24) as Hd by lia. rewrite Hd in Hlo.
      change (2 ^ (24 - 1)) with 8388608 in Hlo.
      destruct (Z.le_gt_cases 0 e) as [Hpos|Hneg].
      * rewrite Z.max_r in Hb by lia. rewrite Z.max_l in Hb by lia.
        assert (1 <= 2 ^ e) by (apply (Z.pow_le_mono_r 2 0 e); lia).
        change (2 ^ 0) with 1 in Hb. nia.
      * rewrite Z.max_l in Hb by lia. rewrite Z.max_r in Hb by lia.
        assert (2 ^ (- e) <= 2 ^ 25) by (apply Z.pow_le_mono_r; lia).
        change (2 ^ 0) with 1 in Hb. change (2 ^ 25) with 33554432 in *. lia.
Qed.

Lemma filter_filter {A : Type} (f : A -> bool) (l : list A) :
  List.filter f (List.filter f l) = List.filter f l.
Proof.
  induction l as [|a l IH]; [done|].
  cbn [List.filter]. destruct (f a) eqn:E; [|done].
  cbn [List.filter]. by rewrite E, IH.
Qed.

Lemma Forall_filter_bool {A : Type} (P : A -> Prop) (f : A -> bool) (l : list A) :
  Forall P l -> Forall P (List.filter f l).
Proof.
  induction 1 as [|a l Ha _ IH]; [constructor|].
  cbn [List.filter]. destruct (f a); [by constructor|done].
Qed.

Lemma elem_of_filter_bool {A : Type} (f : A -> bool) (l : list A) (a : A) :
  a ∈ List.filter f l <-> a ∈ l /\ f a = true.
Proof. rewrite !list_elem_of_In. apply filter_In. Qed.

Lemma removalLine_kept vertices ts :
  flat_map (removalLine vertices) (List.filter (shortEdged vertices) ts) = [].
Proof.
  induction ts as [|t ts IH]; [done|].
  cbn [List.filter]. destruct (shortEdged vertices t) eqn:E; [|done].
  cbn [flat_map]. rewrite IH, app_nil_r.
  unfold shortEdged in E. unfold removalLine.
  destruct (edgeLengths vertices t) as [[[d01 d12] d20]|]; [|done].
  by rewrite E.
Qed.

(** ** C2: the edge-length filter *)

Lemma edgeLengths_valid vertices t d01 d12 d20 :
  edgeLengths vertices t = Some (d01, d12, d20) ->
  F32.valid d01 = true /\ F32.valid d12 = true /\ F32.valid d20 = true.
Proof.
  unfold edgeLengths.
  destruct (positionAt vertices t.1.1) as [v0|]; [|discriminate].
  destruct (positionAt vertices t.1.2) as [v1|]; [|discriminate].
  destruct (positionAt vertices t.2) as [v2|]; [|discriminate].
  cbn [mbind option_bind]. intros [= <- <- <-].
  repeat split; apply distance_valid.
Qed.

(** The test of the filter, [d < 0.15f] on the three computed lengths, is
    the comparison of the three lengths with 0.15 itself. *)
Lemma shortEdged_iff vertices t :
  shortEdged vertices t = true <-> edgesBelowThreshold vertices t.
Proof.
  unfold shortEdged, edgesBelowThreshold.
  destruct (edgeLengths vertices t) as [[[d01 d12] d20]|] eqn:E.
  - destruct (edgeLengths_valid _ _ _ _ _ E) as (V01 & V12 & V20).
    unfold edgesShort. rewrite !andb_true_iff.
    rewrite (ltb_maxEdgeLength d01 V01), (ltb_maxEdgeLength d12 V12),
      (ltb_maxEdgeLength d20 V20).
    split.
    + intros [[H01 H12] H20]. by exists d01, d12, d20.
    + intros (? & ? & ? & [= <- <- <-] & H01 & H12 & H20). done.
  - split; [discriminate|]. by intros (? & ? & ? & ? & _).
Qed.



(** On the sample mesh the first triangle survives and the second, which
    reaches the far vertex, is removed. *)
Example filterLongEdges_sample :
  fst <$> filterLongEdges sampleVertices sampleIndices = Some [0; 1; 2].
Proof. vm_compute. reflexivity. Qed.

(** ** The triangulator as a whole *)

Lemma emitted_inRange (n i : nat) :
  (i + 2 < n)%nat -> Forall (fun j => 0 <= j < Z.of_nat n) (emitted i).
Proof.
  intros Hi. unfold emitted.
  pose proof (to_unsigned_range i). pose proof (to_unsigned_range (i + 1)).
  pose proof (to_unsigned_range (i + 2)).
  repeat constructor; lia.
Qed.

Lemma candidates_wellFormed (vertices : list Vertex) :
  wellFormed vertices (flat_map emitted (seq 0 (length vertices - 2))).
Proof.
  split.
  - apply Forall_flat_map, Forall_forall. intros i Hi%elem_of_seq.
    apply emitted_inRange. lia.
  - rewrite (flat_map_constant_length (c := 3)) by done.
    apply Nat.Div0.mod_mul.
Qed.

Section TriangulatorFacts.

Variable sortPoints : list Point -> list Point.
Hypothesis length_sortPoints : forall l, length (sortPoints l) = length l.

(** With three points or more and empty vectors on entry, the function
    returns the vertices of the points and the filtered strip. *)
Lemma triangulateWith_enough points :
  (3 <= length points)%nat ->
  let vertices := toVertex <$> points in
  let candidates := flat_map emitted (seq 0 (length points - 2)) in
  let kept := List.filter (shortEdged vertices) (triangles candidates) in
  triangulateWith sortPoints points [] []
  = Some (vertices, flatten3 kept,
          flat_map (removalLine vertices) (triangles candidates)
            ++ [FilterCompleted (Z.of_nat (length (flatten3 kept)) / 3)]).
Proof.
  intros H3 vertices candidates kept. unfold triangulateWith.
  destruct (decide (length points < 3)%nat) as [?|_]; [lia|].
  rewrite fillVertices_resize. fold vertices.
  rewrite generateCandidates_length by (rewrite length_sortPoints; lia).
  rewrite length_sortPoints, app_nil_l. fold candidates.
  cbn [mbind option_bind]. unfold filterLongEdges.
  rewrite filterLoop_wellFormed.
  - done.
  - unfold candidates. replace (length points) with (length vertices)
      by apply length_fmap.
    apply candidates_wellFormed.
Qed.

End TriangulatorFacts.

(** ** C6: the mesh invariant *)

(** C6: for every point sequence, the triangulator called on empty vectors
    returns; every index it leaves in [indices] is a position of
    [vertices], and the number of indices is a multiple of three. *)
Theorem triangulation_mesh_invariant (points : list Point) :
  exists vertices indices log,
    triangulateSimplified points [] [] = Some (vertices, indices, log)
    /\ Forall (fun i => 0 <= i < Z.of_nat (length vertices)) indices
    /\ (length indices mod 3 = 0)%nat.
Proof.
  destruct (decide (length points < 3)%nat) as [Hlt|Hge].
  - exists [], [], [NotEnoughPoints]. unfold triangulateSimplified, triangulateWith.
    destruct (decide (length points < 3)%nat); [|lia].
    by repeat split.
  - eexists _, _, _. split.
    + apply triangulateWith_enough; [apply length_std_sort|lia].
    + apply wellFormed_flatten3, Forall_filter_bool.
      apply wellFormed_triangles.
      replace (length points) with (length (toVertex <$> points))
        by apply length_fmap.
      apply candidates_wellFormed.
Qed.

(** ** C8: fewer than three points *)

(** C8: with fewer than three points the triangulator returns normally,
    leaves both vectors as it received them, so that the empty vectors
    handed over by [main] stay an empty mesh with zero triangles, and
    writes the line "Not enough points to create a mesh." and nothing
    else. *)
Theorem triangulate_insufficient_points (points : list Point) :
  (length points < 3)%nat ->
  triangulateSimplified points [] [] = Some ([], [], [NotEnoughPoints])
  /\ triangles [] = []
  /\ forall vertices indices,
       triangulateSimplified points vertices indices
       = Some (vertices, indices, [NotEnoughPoints]).
Proof.
  intros Hlt.
  assert (H : forall vertices indices,
             triangulateSimplified points vertices indices
             = Some (vertices, indices, [NotEnoughPoints])).
  { intros vertices indices. unfold triangulateSimplified, triangulateWith.
    by destruct (decide (length points < 3)%nat). }
  by rewrite H.
Qed.

Lemma triangulate_insufficient_twoPoints :
  triangulateSimplified twoPoints [] [] = Some ([], [], [NotEnoughPoints])
  /\ triangles [] = []
  /\ forall vertices indices,
       triangulateSimplified twoPoints vertices indices
       = Some (vertices, indices, [NotEnoughPoints]).
Proof.
  apply (triangulate_insufficient_points twoPoints). cbn. lia.
Defined.

(** ** C9: the sort is dead code *)

Lemma emitLoopNoSort_flat_map counters indices :
  emitLoopNoSort counters indices = indices ++ flat_map emitted counters.
Proof.
  revert indices. induction counters as [|i counters IH]; intros indices.
  - cbn. by rewrite app_nil_r.
  - cbn [emitLoopNoSort flat_map]. rewrite IH. by rewrite <- app_assoc.
Qed.

(** Any rearrangement that keeps the number of points gives the
    triangulator without the sort. *)
Lemma triangulateWith_NoSort (sortPoints : list Point -> list Point) :
  (forall l, length (sortPoints l) = length l) ->
  forall points vertices indices,
    triangulateWith sortPoints points vertices indices
    = triangulateNoSort points vertices indices.
Proof.
  intros Hlen points vertices indices.
  unfold triangulateWith, triangulateNoSort.
  destruct (decide (length points < 3)%nat) as [|Hge]; [done|].
  rewrite generateCandidates_length by (rewrite Hlen; lia).
  by rewrite Hlen, emitLoopNoSort_flat_map.
Qed.

(** C9: for every point sequence, and whatever the two vectors hold on
    entry, the triangulator as written and the triangulator without the
    sort return the same vertices, the same filtered indices and the same
    lines. *)
Theorem sort_has_no_effect (points : list Point) (vertices : list Vertex)
    (indices : list Z) :
  triangulateSimplified points vertices indices
  = triangulateNoSort points vertices indices.
Proof.
  apply triangulateWith_NoSort. intros l. apply length_std_sort.
Qed.

(** ** The normal estimator *)

Lemma positions_alter_addNormal n i (vertices : list Vertex) :
  position <$> alter (addNormal n) i vertices = position <$> vertices.
Proof.
  rewrite (list_fmap_alter position (addNormal n) id).
  - by apply list_alter_id.
  - by apply Forall_forall.
Qed.

(** The three reads at the head of a loop round succeed, or the round
    returns nothing. *)
Ltac read_positions H :=
  repeat match type of H with
    | context [positionAt ?vs ?i] =>
        destruct (positionAt vs i); [|discriminate H]
    end;
  cbn [mbind option_bind] in H.

Lemma accumulateLoop_positions indices : forall vertices accumulated,
  accumulateLoop vertices indices = Some accumulated ->
  position <$> accumulated = position <$> vertices.
Proof.
  induction indices as [|a|a b|a b c l IH] using list_ind3;
    intros vertices accumulated H.
  - by injection H as <-.
  - discriminate H.
  - discriminate H.
  - cbn [accumulateLoop] in H. read_positions H. apply IH in H.
    by rewrite H, !positions_alter_addNormal.
Qed.

Lemma inRange_same_length (vs1 vs2 : list Vertex) i :
  length vs1 = length vs2 -> inRange vs1 i -> inRange vs2 i.
Proof. unfold inRange. by intros ->. Qed.

Lemma wellFormed_same_length (vs1 vs2 : list Vertex) indices :
  length vs1 = length vs2 -> wellFormed vs1 indices -> wellFormed vs2 indices.
Proof.
  intros Hlen [Hall Hmod]. split; [|done].
  eapply Forall_impl; [exact Hall|]. intros i. by apply inRange_same_length.
Qed.

Lemma accumulateLoop_defined indices : forall vertices,
  wellFormed vertices indices -> is_Some (accumulateLoop vertices indices).
Proof.
  induction indices as [|a|a b|a b c l IH] using list_ind3; intros vertices.
  - by eexists.
  - intros [_ H]. discriminate H.
  - intros [_ H]. discriminate H.
  - intros (Ha & Hb & Hc & Hl)%wellFormed_cons3.
    destruct (positionAt_inRange _ _ Ha) as [v0 E0].
    destruct (positionAt_inRange _ _ Hb) as [v1 E1].
    destruct (positionAt_inRange _ _ Hc) as [v2 E2].
    cbn [accumulateLoop]. rewrite E0, E1, E2. cbn [mbind option_bind].
    apply IH. eapply wellFormed_same_length; [|exact Hl].
    by rewrite !length_alter.
Qed.

(** A vertex that no index names keeps what it held before the loop. *)
Lemma accumulateLoop_unreferenced indices : forall vertices accumulated j,
  accumulateLoop vertices indices = Some accumulated ->
  (forall i, i ∈ indices -> Z.to_nat i <> j) ->
  accumulated !! j = vertices !! j.
Proof.
  induction indices as [|a|a b|a b c l IH] using list_ind3;
    intros vertices accumulated j H Hj.
  - by injection H as <-.
  - discriminate H.
  - discriminate H.
  - cbn [accumulateLoop] in H. read_positions H.
    rewrite (IH _ _ j H).
    + rewrite !list_lookup_alter_ne; [done|apply Hj..];
        rewrite !elem_of_cons; auto.
    + intros i Hi. apply Hj. rewrite !elem_of_cons. auto.
Qed.

(** [glm::normalize] of a zero vector, whatever the signs of its zeros:
    [0 * (1 / sqrt 0)] is [0 * inf], NaN in every component. *)
Lemma normalize_zero_is_nan (v : glm.vec3) :
  glm.is_zero v = true -> glm.normalize v = glm.all_nan.
Proof.
  destruct v as [[s1| | |] [s2| | |] [s3| | |]]; try discriminate.
  intros _. by destruct s1, s2, s3.
Qed.

(** ** C10: the normal estimator only writes normals *)

(** C10: on every vertex sequence and every index sequence it can be read
    with, the normal estimator returns a vertex sequence with the same
    positions, in the same order and number; only the normals differ. The
    index sequence is read-only input of the embedding, as the [const]
    reference is in the source. *)
Theorem calculateNormals_frame (vertices : list Vertex) (indices : list Z) :
  wellFormed vertices indices ->
  exists vertices',
    calculateNormals vertices indices = Some vertices'
    /\ position <$> vertices' = position <$> vertices
    /\ length vertices' = length vertices
    /\ forall j v', vertices' !! j = Some v' ->
         exists v, vertices !! j = Some v /\ position v' = position v.
Proof.
  intros Hwf. unfold calculateNormals.
  destruct (accumulateLoop_defined indices (resetNormals vertices)) as [acc Hacc].
  { eapply wellFormed_same_length; [|exact Hwf]. unfold resetNormals.
    by rewrite length_fmap. }
  rewrite Hacc. cbn [mbind option_bind]. eexists. split; [done|].
  assert (Hpos : position <$> (normalizeNormal <$> acc) = position <$> vertices).
  { apply accumulateLoop_positions in Hacc. unfold resetNormals in Hacc.
    rewrite <- list_fmap_compose in *. exact Hacc. }
  split; [done|]. split.
  - by rewrite <- (length_fmap position), Hpos, length_fmap.
  - intros j v' Hj.
    assert (Hl : (position <$> vertices) !! j = Some (position v')).
    { rewrite <- Hpos, list_lookup_fmap, Hj. done. }
    rewrite list_lookup_fmap in Hl.
    destruct (vertices !! j) as [v|]; [|discriminate Hl].
    exists v. split; [done|]. by injection Hl.
Qed.

Lemma calculateNormals_frame_sample :
  exists vertices',
    calculateNormals sampleVertices sampleIndices = Some vertices'
    /\ position <$> vertices' = position <$> sampleVertices
    /\ length vertices' = length sampleVertices
    /\ forall j v', vertices' !! j = Some v' ->
         exists v, sampleVertices !! j = Some v /\ position v' = position v.
Proof.
  apply (calculateNormals_frame sampleVertices sampleIndices).
  split; [|reflexivity].
  repeat constructor; unfold inRange; cbn; lia.
Defined.

(** ** C4: zero accumulators *)

(** Whatever the mesh, a vertex whose accumulator is a zero vector ends
    with NaN in the three components of its normal, and every vertex that
    no index names has such an accumulator. *)
Lemma zero_accumulator_becomes_nan (vertices : list Vertex) (indices : list Z)
    (accumulated : list Vertex) :
  accumulateLoop (resetNormals vertices) indices = Some accumulated ->
  exists final,
    calculateNormals vertices indices = Some final
    /\ (forall j v, accumulated !! j = Some v ->
          glm.is_zero (normal v) = true ->
          normal <$> final !! j = Some glm.all_nan)
    /\ (forall j, (j < length vertices)%nat ->
          (forall i, i ∈ indices -> Z.to_nat i <> j) ->
          normal <$> accumulated !! j = Some glm.zero
          /\ normal <$> final !! j = Some glm.all_nan).
Proof.
  intros Hacc. unfold calculateNormals. rewrite Hacc. cbn [mbind option_bind].
  eexists. split; [done|].
  assert (Hzero : forall j v, accumulated !! j = Some v ->
            glm.is_zero (normal v) = true ->
            normal <$> (normalizeNormal <$> accumulated) !! j = Some glm.all_nan).
  { intros j v Hj Hz. rewrite list_lookup_fmap, Hj. cbn.
    by rewrite normalize_zero_is_nan. }
  split; [exact Hzero|].
  intros j Hlt Hj.
  destruct (lookup_lt_is_Some_2 vertices j Hlt) as [v Hv].
  assert (Hlook : accumulated !! j = Some (set_normal (glm.splat F32.zero) v)).
  { rewrite (accumulateLoop_unreferenced _ _ _ j Hacc Hj).
    unfold resetNormals. by rewrite list_lookup_fmap, Hv. }
  split; [by rewrite Hlook|].
  by apply (Hzero j _ Hlook).
Qed.

(** C4, on the code: for the unit square every triangle is filtered out,
    no vertex is referenced, and the normal estimator leaves no zero
    normal: each of the four normals is NaN in its three components. The
    same holds when the estimator is run on the four vertices directly. *)
Theorem unreferenced_normals_are_nan :
  (exists vertices log,
     main unitSquare = Some (Rendered vertices [], log)
     /\ length vertices = 4%nat
     /\ Forall (fun v => normal v = glm.all_nan) vertices
     /\ Forall (fun v => glm.is_zero (normal v) = false) vertices)
  /\ (exists final,
        calculateNormals squareVertices [] = Some final
        /\ length final = 4%nat
        /\ Forall (fun v => normal v = glm.all_nan) final).
Proof.
  split.
  - eexists _, _. split; [vm_compute; reflexivity|].
    split; [reflexivity|]. split; repeat constructor.
  - eexists. split; [reflexivity|]. split; [reflexivity|].
    repeat constructor.
Qed.

(** On the sample mesh with its first triangle only, the three vertices
    of the triangle get the unit normal [(0, -1, 0)] and the fourth
    vertex, which no index names, gets NaN. *)
Example calculateNormals_sample :
  (fun vs : list Vertex => normal <$> vs)
    <$> calculateNormals sampleVertices [0; 1; 2]
  = Some [ glm.Vec3 F32.zero (F32.of_Z (-1)) F32.zero;
           glm.Vec3 F32.zero (F32.of_Z (-1)) F32.zero;
           glm.Vec3 F32.zero (F32.of_Z (-1)) F32.zero;
           glm.all_nan ].
Proof. vm_compute. reflexivity. Qed.

(** ** C5: unit normals *)

(** C5, on the code: for three coincident samples the whole construction
    returns the triangle [(0, 1, 2)], which survives the filter with three
    edges of length zero, and each of its three vertices gets a normal
    that is NaN in every component, of magnitude NaN and not 1 within
    tolerance. *)
Theorem degenerate_triangle_normals_are_nan :
  exists vertices log,
    main coincidentPoints = Some (Rendered vertices [0; 1; 2], log)
    /\ length vertices = 3%nat
    /\ Forall (fun v => normal v = glm.all_nan) vertices
    /\ Forall (fun v => glm.length (normal v) = F32.nan) vertices
    /\ Forall (fun v => nearOne (glm.length (normal v)) = false) vertices.
Proof.
  eexists _, _. split; [vm_compute; reflexivity|].
  split; [reflexivity|].
  repeat split; repeat constructor.
Qed.

(** ** C3: the range of normalised points *)

(** C3, on the code: for the two samples [(1, 0, 0)] and
    [(1 + 2^-23, 0, 0)] the centre [(1 + (1 + 2^-23)) / 2] rounds to [1]
    and the scale is [2^-24], so the points become [(0, 0, 0)] and
    [(2, 0, 0)]: a coordinate lies outside [[-1, 1]] and none equals 1 or
    -1, although the two samples differ. *)
Theorem normalizePoints_leaves_unit_range :
  normalizePoints nearbyPair
  = ([ Point.Make F32.zero F32.zero F32.zero;
       Point.Make F32.two F32.zero F32.zero ], [PointsNormalized])
  /\ inUnitRange F32.two = false
  /\ Forall (fun p => Forall (fun c => isPlusMinusOne c = false) (coordinates p))
            (normalizePoints nearbyPair).1.
Proof.
  split; [vm_compute; reflexivity|]. split; [reflexivity|].
  repeat constructor.
Qed.

(** The same on integer coordinates: for [x = 16777215] and
    [x = 16777218] the sum [33554433] is no binary32 value and rounds to
    [33554432], the centre is [16777216], the scale [1.5], and the points
    get [x = -2/3] and [x = 4/3]. *)
Example normalizePoints_large_coordinates :
  normalizePoints [ Point.Make (F32.of_Z 16777215) F32.zero F32.zero;
                    Point.Make (F32.of_Z 16777218) F32.zero F32.zero ]
  = ([ Point.Make (F32.of_Z (-2) / F32.of_Z 3)%f32 F32.zero F32.zero;
       Point.Make (F32.of_Z 4 / F32.of_Z 3)%f32 F32.zero F32.zero ],
     [PointsNormalized])
  /\ inUnitRange (F32.of_Z 4 / F32.of_Z 3)%f32 = false.
Proof. split; vm_compute; reflexivity. Qed.

(** The coincident case of C3 on the code: two samples at the largest
    float are coincident, yet [minX + maxX] overflows, the centre is
    infinite and both points get [x = -inf] instead of zero. *)
Example normalizePoints_coincident_overflow :
  normalizePoints [ Point.Make FLT_MAX F32.zero F32.zero;
                    Point.Make FLT_MAX F32.zero F32.zero ]
  = ([ Point.Make (S754_infinity true) F32.zero F32.zero;
       Point.Make (S754_infinity true) F32.zero F32.zero ], [PointsNormalized]).
Proof. vm_compute. reflexivity. Qed.

(** What does hold for every input: the number and the order of the
    points are kept, each point being rescaled by the same bounds. *)
Lemma normalizePoints_pointwise (points : list Point) :
  exists b, (normalizePoints points).1 = rescale b <$> points
  /\ length (normalizePoints points).1 = length points.
Proof.
  destruct points as [|p0 points].
  - exists (initBounds origin). by split.
  - eexists. split; [reflexivity|]. cbn [normalizePoints fst].
    by rewrite length_fmap.
Qed.

(** ** C7: empty input *)

(** C7, as stated, fails: on the empty sequence the normaliser writes
    nothing at all. *)
Lemma normalizePoints_empty_is_silent :
  ~ ((normalizePoints []).1 = [] /\ signalled (normalizePoints [])).
Proof. intros [_ H]. by apply H. Qed.

(** C7, amended: on the empty sequence the normaliser changes nothing and
    returns without writing anything; the empty input is reported by its
    caller, which writes "No terrain data loaded." and exits with -1
    before the normaliser is reached. *)
Theorem normalizePoints_empty (points : list Point) :
  normalizePoints [] = ([], [])
  /\ ~ signalled (normalizePoints [])
  /\ main [] = Some (Exited (-1), [NoTerrainData])
  /\ (signalled (normalizePoints points) <-> points <> []).
Proof.
  split; [done|]. split; [by intros H; apply H|]. split; [done|].
  destruct points as [|p points]; unfold signalled; cbn; split; congruence.
Qed.

(** * Further properties *)

(** ** The order of the float comparisons *)

Lemma lexCompare_spec k1 k2 :
  match lexCompare k1 k2 with
  | Lt => lexLt k1 k2
  | Eq => k1 = k2
  | Gt => lexLt k2 k1
  end.
Proof.
  destruct k1 as [[a1 b1] c1], k2 as [[a2 b2] c2].
  unfold lexCompare, lexLt. cbn [fst snd].
  destruct (Z.compare_spec a1 a2); [|lia..].
  destruct (Z.compare_spec b1 b2); [|lia..].
  destruct (Z.compare_spec c1 c2); [congruence|lia..].
Qed.

Lemma SFcompare_orderKey (a b : spec_float) :
  SFcompare a b
  = match orderKey a, orderKey b with
    | Some ka, Some kb => Some (lexCompare ka kb)
    | _, _ => None
    end.
Proof.
  destruct a as [sa|sa| |sa ma ea], b as [sb|sb| |sb mb eb];
    try reflexivity.
  all: try (destruct sa; reflexivity).
  all: try (destruct sb; reflexivity).
  all: try (destruct sa, sb; reflexivity).
  destruct sa, sb; try reflexivity.
  cbn [SFcompare orderKey]. unfold lexCompare. cbn [fst snd].
  change (-1 ?= -1) with Eq. cbv iota.
  rewrite Z.compare_opp, (Z.compare_antisym ea eb).
  destruct (ea ?= eb); reflexivity.
Qed.

Lemma lexLt_irrefl k : ~ lexLt k k.
Proof. destruct k as [[? ?] ?]. unfold lexLt. cbn. lia. Qed.

Lemma lexLt_trans k1 k2 k3 : lexLt k1 k2 -> lexLt k2 k3 -> lexLt k1 k3.
Proof.
  destruct k1 as [[? ?] ?], k2 as [[? ?] ?], k3 as [[? ?] ?].
  unfold lexLt. cbn. lia.
Qed.

Lemma lexLt_asym k1 k2 : lexLt k1 k2 -> ~ lexLt k2 k1.
Proof. intros H1 H2. exact (lexLt_irrefl _ (lexLt_trans _ _ _ H1 H2)). Qed.

Lemma SFltb_lexLt (a b : spec_float) :
  SFltb a b = true <->
  exists ka kb, orderKey a = Some ka /\ orderKey b = Some kb /\ lexLt ka kb.
Proof.
  unfold SFltb. rewrite SFcompare_orderKey.
  destruct (orderKey a) as [ka|], (orderKey b) as [kb|].
  - pose proof (lexCompare_spec ka kb) as H.
    destruct (lexCompare ka kb); split; try discriminate; try done.
    + intros (x & y & [= <-] & [= <-] & Hlt). rewrite H in Hlt.
      by apply lexLt_irrefl in Hlt.
    + intros _. by exists ka, kb.
    + intros (x & y & [= <-] & [= <-] & Hlt). by apply lexLt_asym in Hlt.
  - split; [discriminate|]. by intros (? & ? & _ & ? & _).
  - split; [discriminate|]. by intros (? & ? & ? & _).
  - split; [discriminate|]. by intros (? & ? & ? & _).
Qed.

Lemma SFltb_irrefl (a : spec_float) : SFltb a a = false.
Proof.
  apply not_true_is_false. intros (ka & kb & Ha & Hb & Hlt)%SFltb_lexLt.
  rewrite Ha in Hb. injection Hb as <-. by apply lexLt_irrefl in Hlt.
Qed.

Lemma SFltb_trans (a b c : spec_float) :
  SFltb a b = true -> SFltb b c = true -> SFltb a c = true.
Proof.
  intros (ka & kb & Ha & Hb & Hab)%SFltb_lexLt (kb' & kc & Hb' & Hc & Hbc)%SFltb_lexLt.
  rewrite Hb in Hb'. injection Hb' as <-.
  apply SFltb_lexLt. exists ka, kc. repeat split; [done..|].
  by apply (lexLt_trans _ kb).
Qed.

Lemma SFltb_asym (a b : spec_float) : SFltb a b = true -> SFltb b a = false.
Proof.
  intros Hab. apply not_true_is_false. intros Hba.
  pose proof (SFltb_trans _ _ _ Hab Hba) as H. by rewrite SFltb_irrefl in H.
Qed.

Lemma SFeqb_orderKey (a b : spec_float) :
  SFeqb a b = true <-> exists k, orderKey a = Some k /\ orderKey b = Some k.
Proof.
  unfold SFeqb. rewrite SFcompare_orderKey.
  destruct (orderKey a) as [ka|], (orderKey b) as [kb|].
  - pose proof (lexCompare_spec ka kb) as H.
    destruct (lexCompare ka kb); split; try discriminate; try done.
    + intros _. exists kb. by rewrite H.
    + intros (k & [= <-] & [= <-]). by apply lexLt_irrefl in H.
    + intros (k & [= <-] & [= <-]). by apply lexLt_irrefl in H.
  - split; [discriminate|]. by intros (? & ? & ?).
  - split; [discriminate|]. by intros (? & ? & ?).
  - split; [discriminate|]. by intros (? & ? & ?).
Qed.

Lemma SFleb_orderKey (a b : spec_float) :
  SFleb a b = true <->
  exists ka kb, orderKey a = Some ka /\ orderKey b = Some kb /\ ~ lexLt kb ka.
Proof.
  unfold SFleb. rewrite SFcompare_orderKey.
  destruct (orderKey a) as [ka|], (orderKey b) as [kb|].
  - pose proof (lexCompare_spec ka kb) as H.
    destruct (lexCompare ka kb); split; try discriminate; try done.
    + intros _. exists ka, kb. repeat split; [done..|].
      rewrite H. apply lexLt_irrefl.
    + intros _. exists ka, kb. repeat split; [done..|]. by apply lexLt_asym.
    + intros (x & y & [= <-] & [= <-] & Hn). done.
  - split; [discriminate|]. by intros (? & ? & _ & ? & _).
  - split; [discriminate|]. by intros (? & ? & ? & _).
  - split; [discriminate|]. by intros (? & ? & ? & _).
Qed.

(** On values that are not NaN, "not less" is "greater or equal". *)
Lemma SFleb_of_not_ltb (a b : spec_float) :
  is_Some (orderKey a) -> is_Some (orderKey b) ->
  SFltb b a = false -> SFleb a b = true.
Proof.
  intros [ka Ha] [kb Hb] Hn. apply SFleb_orderKey. exists ka, kb.
  repeat split; [done..|]. intros Hlt.
  assert (SFltb b a = true) by (apply SFltb_lexLt; by exists kb, ka).
  congruence.
Qed.

Lemma ltb_irrefl (a : F32.float) : (a <? a)%f32 = false.
Proof. apply SFltb_irrefl. Qed.

Lemma ltb_trans (a b c : F32.float) :
  (a <? b)%f32 = true -> (b <? c)%f32 = true -> (a <? c)%f32 = true.
Proof. apply SFltb_trans. Qed.

(** ** normalizePoints: the bounds of the first loop *)

Lemma fold_updateBounds points : forall b,
  let b' := fold_left updateBounds points b in
  minX b' = fold_left (fun m x => if (x <? m)%f32 then x else m) (Point.x <$> points) (minX b)
  /\ maxX b' = fold_left (fun m x => if (x >? m)%f32 then x else m) (Point.x <$> points) (maxX b)
  /\ minY b' = fold_left (fun m x => if (x <? m)%f32 then x else m) (Point.y <$> points) (minY b)
  /\ maxY b' = fold_left (fun m x => if (x >? m)%f32 then x else m) (Point.y <$> points) (maxY b)
  /\ minZ b' = fold_left (fun m x => if (x <? m)%f32 then x else m) (Point.z <$> points) (minZ b)
  /\ maxZ b' = fold_left (fun m x => if (x >? m)%f32 then x else m) (Point.z <$> points) (maxZ b).
Proof.
  induction points as [|p points IH]; intros b; [done|].
  cbn [fold_left]. rewrite !fmap_cons. cbn [fold_left]. apply (IH (updateBounds b p)).
Qed.

(** The running minimum ends on its start value or on an element, never
    above its start value, and no element compares below it. *)
Lemma running_min xs : forall m,
  let r := fold_left (fun m x => if (x <? m)%f32 then x else m) xs m in
  (r = m \/ r ∈ xs)
  /\ (r = m \/ (r <? m)%f32 = true)
  /\ Forall (fun x => (x <? r)%f32 = false) xs.
Proof.
  induction xs as [|x xs IH]; intros m; cbn [fold_left].
  - repeat split; [by left..|constructor].
  - destruct (IH (if (x <? m)%f32 then x else m)) as (Hin & Hle & Hall).
    set (r := fold_left _ xs _) in *.
    destruct (x <? m)%f32 eqn:Hxm.
    + repeat split.
      * right. destruct Hin as [->|Hin]; [left|by right].
      * right. destruct Hle as [->|Hle]; [done|by apply (ltb_trans _ x)].
      * constructor; [|done]. destruct Hle as [->|Hle]; [apply ltb_irrefl|].
        apply not_true_is_false. intros Hxr.
        pose proof (ltb_trans _ _ _ Hxr Hle) as H. by rewrite ltb_irrefl in H.
    + repeat split.
      * destruct Hin as [->|Hin]; [by left|right; by right].
      * done.
      * constructor; [|done]. destruct Hle as [->|Hle]; [done|].
        apply not_true_is_false. intros Hxr.
        pose proof (ltb_trans _ _ _ Hxr Hle) as H. congruence.
Qed.

Lemma running_max xs : forall m,
  let r := fold_left (fun m x => if (x >? m)%f32 then x else m) xs m in
  (r = m \/ r ∈ xs)
  /\ (r = m \/ (r >? m)%f32 = true)
  /\ Forall (fun x => (x >? r)%f32 = false) xs.
Proof.
  unfold F32.gtb.
  induction xs as [|x xs IH]; intros m; cbn [fold_left].
  - repeat split; [by left..|constructor].
  - destruct (IH (if SFltb m x then x else m)) as (Hin & Hle & Hall).
    set (r := fold_left _ xs _) in *.
    destruct (SFltb m x) eqn:Hxm.
    + repeat split.
      * right. destruct Hin as [->|Hin]; [left|by right].
      * right. destruct Hle as [->|Hle]; [done|by apply (SFltb_trans _ x)].
      * constructor; [|done]. destruct Hle as [->|Hle]; [apply SFltb_irrefl|].
        apply not_true_is_false. intros Hxr.
        pose proof (SFltb_trans _ _ _ Hle Hxr) as H. by rewrite SFltb_irrefl in H.
    + repeat split.
      * destruct Hin as [->|Hin]; [by left|right; by right].
      * done.
      * constructor; [|done]. destruct Hle as [->|Hle]; [done|].
        apply not_true_is_false. intros Hxr.
        pose proof (SFltb_trans _ _ _ Hle Hxr) as H. congruence.
Qed.

Lemma encloses_running (x0 : F32.float) (xs : list F32.float) :
  encloses
    (fold_left (fun m x => if (x <? m)%f32 then x else m) (x0 :: xs) x0)
    (fold_left (fun m x => if (x >? m)%f32 then x else m) (x0 :: xs) x0)
    (x0 :: xs).
Proof.
  destruct (running_min (x0 :: xs) x0) as (Hin & _ & Hall).
  destruct (running_max (x0 :: xs) x0) as (Hin' & _ & Hall').
  repeat split.
  - destruct Hin as [->|Hin]; [left|done].
  - destruct Hin' as [->|Hin']; [left|done].
  - apply Forall_and. by split.
Qed.

Lemma scaleOf_not_zero (b : Bounds) : F32.is_zero (scaleOf b) = false.
Proof.
  unfold scaleOf.
  destruct (max3 _ _ _ / F32.two)%f32 as [s|s| |s m e];
    try destruct s; reflexivity.
Qed.

(** X1. For every non-empty input the first loop ends with bounds that
    are coordinates of input points and that no coordinate compares below
    or above, on each axis; the points are then all rescaled with these
    bounds, by a divisor that is never a zero. *)
Theorem normalizePoints_bounds (p0 : Point) (rest : list Point) :
  let points := p0 :: rest in
  exists b,
    (normalizePoints points).1 = rescale b <$> points
    /\ encloses (minX b) (maxX b) (Point.x <$> points)
    /\ encloses (minY b) (maxY b) (Point.y <$> points)
    /\ encloses (minZ b) (maxZ b) (Point.z <$> points)
    /\ F32.is_zero (scaleOf b) = false.
Proof.
  intros points. exists (fold_left updateBounds points (initBounds p0)).
  split; [done|].
  destruct (fold_updateBounds points (initBounds p0))
    as (-> & -> & -> & -> & -> & ->).
  repeat split; try apply scaleOf_not_zero;
    unfold points; rewrite fmap_cons; apply encloses_running.
Qed.

(** ** triangulateSimplified: what it does to the two vectors *)

Lemma triangles_app (a b : list Z) :
  (length a mod 3 = 0)%nat -> triangles (a ++ b) = triangles a ++ triangles b.
Proof.
  induction a as [|x|x y|x y z l IH] using list_ind3; intros Hmod.
  - done.
  - discriminate Hmod.
  - discriminate Hmod.
  - cbn [length] in Hmod. rewrite mod3_cons3 in Hmod.
    cbn [app triangles]. by rewrite IH.
Qed.

Lemma wellFormed_app vertices (a b : list Z) :
  wellFormed vertices a -> wellFormed vertices b -> wellFormed vertices (a ++ b).
Proof.
  intros [Ha Hma] [Hb Hmb]. split; [by apply Forall_app|].
  rewrite length_app, Nat.Div0.add_mod, Hma, Hmb. done.
Qed.

Lemma filter_bool_app {A : Type} (f : A -> bool) (l1 l2 : list A) :
  List.filter f (l1 ++ l2) = List.filter f l1 ++ List.filter f l2.
Proof. apply List.filter_app. Qed.

Lemma flatten3_app ts1 ts2 : flatten3 (ts1 ++ ts2) = flatten3 ts1 ++ flatten3 ts2.
Proof. apply flat_map_app. Qed.

(** With three points or more, whatever the two vectors hold on entry, as
    long as the indices already there can be read on the new vertices. *)
Lemma triangulateSimplified_enough points vertices0 indices0 :
  (3 <= length points)%nat ->
  wellFormed (toVertex <$> points) indices0 ->
  let vertices := toVertex <$> points in
  let candidates := flat_map emitted (seq 0 (length points - 2)) in
  let all := triangles indices0 ++ triangles candidates in
  triangulateSimplified points vertices0 indices0
  = Some (vertices, flatten3 (List.filter (shortEdged vertices) all),
          flat_map (removalLine vertices) all
            ++ [FilterCompleted
                  (Z.of_nat (length (flatten3 (List.filter (shortEdged vertices) all))) / 3)]).
Proof.
  intros H3 Hwf vertices candidates all.
  unfold triangulateSimplified, triangulateWith.
  destruct (decide (length points < 3)%nat) as [?|_]; [lia|].
  rewrite fillVertices_resize. fold vertices.
  rewrite generateCandidates_length by (rewrite length_std_sort; lia).
  rewrite length_std_sort. fold candidates.
  cbn [mbind option_bind]. unfold filterLongEdges.
  assert (Hc : wellFormed vertices candidates).
  { unfold candidates. replace (length points) with (length vertices)
      by apply length_fmap.
    apply candidates_wellFormed. }
  rewrite filterLoop_wellFormed by by apply wellFormed_app.
  rewrite triangles_app by apply Hwf. done.
Qed.

Lemma wellFormed_nil vertices : wellFormed vertices [].
Proof. split; [constructor|done]. Qed.

(** X2. With three points or more the vertex vector is rebuilt from the
    points whatever it held on entry: one vertex per point, in order, with
    the coordinates of the point as position and a zero normal. *)
Theorem triangulate_rebuilds_vertices (points : list Point)
    (vertices0 : list Vertex) :
  (3 <= length points)%nat ->
  exists vertices indices log,
    triangulateSimplified points vertices0 [] = Some (vertices, indices, log)
    /\ length vertices = length points
    /\ forall i p, points !! i = Some p ->
         vertices !! i
         = Some (mkVertex (glm.Vec3 (Point.x p) (Point.y p) (Point.z p)) glm.zero).
Proof.
  intros H3. eexists _, _, _. split.
  - apply triangulateSimplified_enough; [done|apply wellFormed_nil].
  - split; [apply length_fmap|].
    intros i p Hp. by rewrite list_lookup_fmap, Hp.
Qed.

Lemma triangulate_rebuilds_vertices_sample :
  exists vertices indices log,
    triangulateSimplified unitSquare sampleVertices [] = Some (vertices, indices, log)
    /\ length vertices = length unitSquare
    /\ forall i p, unitSquare !! i = Some p ->
         vertices !! i
         = Some (mkVertex (glm.Vec3 (Point.x p) (Point.y p) (Point.z p)) glm.zero).
Proof. apply (triangulate_rebuilds_vertices unitSquare sampleVertices). cbn. lia. Defined.

Lemma edgeLengths_inRange vertices t :
  inRange vertices t.1.1 -> inRange vertices t.1.2 -> inRange vertices t.2 ->
  is_Some (edgeLengths vertices t).
Proof.
  intros H0 H1 H2. unfold edgeLengths.
  destruct (positionAt_inRange _ _ H0) as [v0 ->].
  destruct (positionAt_inRange _ _ H1) as [v1 ->].
  destruct (positionAt_inRange _ _ H2) as [v2 ->].
  by eexists.
Qed.

(** Each readable triangle is either kept or gets its line. *)
Lemma kept_plus_removed vertices ts :
  Forall (fun t => inRange vertices t.1.1 /\ inRange vertices t.1.2
                   /\ inRange vertices t.2) ts ->
  (length (List.filter (shortEdged vertices) ts)
   + length (flat_map (removalLine vertices) ts) = length ts)%nat.
Proof.
  induction 1 as [|t ts (H0 & H1 & H2) _ IH]; [done|].
  cbn [List.filter flat_map]. rewrite length_app.
  set (kept := List.filter (shortEdged vertices) ts) in *.
  set (lines := flat_map (removalLine vertices) ts) in *.
  destruct (edgeLengths_inRange vertices t H0 H1 H2) as [[[d01 d12] d20] E].
  unfold shortEdged, removalLine. rewrite E.
  destruct (edgesShort d01 d12 d20); cbn [length]; lia.
Qed.

Lemma length_triangles_flatten3 ts :
  Z.of_nat (length (flatten3 ts)) / 3 = Z.of_nat (length ts).
Proof.
  rewrite length_flatten3, Nat2Z.inj_mul, Z.mul_comm.
  apply Z.div_mul. lia.
Qed.

Lemma removalLines_only vertices ts :
  Forall isRemovalLine (flat_map (removalLine vertices) ts).
Proof.
  apply Forall_flat_map, Forall_forall. intros t _. unfold removalLine.
  destruct (edgeLengths vertices t) as [[[d01 d12] d20]|]; [|constructor].
  destruct (edgesShort d01 d12 d20); repeat constructor.
Qed.

(** X3. With three points or more, every one of the [N-2] candidates is
    either kept or reported: the number of surviving triangles plus the
    number of "Removed triangle" lines is [N-2], these lines are all that
    is written before the closing line, and the closing line gives the
    number of surviving triangles. *)
Theorem triangulate_accounts_for_candidates (points : list Point) :
  (3 <= length points)%nat ->
  exists vertices indices removed,
    triangulateSimplified points [] []
    = Some (vertices, indices,
            removed ++ [FilterCompleted (Z.of_nat (length (triangles indices)))])
    /\ Forall isRemovalLine removed
    /\ (length (triangles indices) + length removed = length points - 2)%nat.
Proof.
  intros H3. eexists _, _, _. split; [|split].
  - rewrite (triangulateSimplified_enough points [] [] H3 (wellFormed_nil _)).
    cbn [triangles app]. by rewrite length_triangles_flatten3, triangles_flatten3.
  - apply removalLines_only.
  - rewrite triangles_flatten3, kept_plus_removed.
    + destruct (wellFormed_triangles (toVertex <$> points)
                  (flat_map emitted (seq 0 (length points - 2)))) as [Heq _].
      { replace (length points) with (length (toVertex <$> points))
          by apply length_fmap.
        apply candidates_wellFormed. }
      apply (f_equal length) in Heq.
      rewrite length_flatten3 in Heq.
      rewrite (flat_map_constant_length (c := 3)) in Heq by done.
      rewrite length_seq in Heq. lia.
    + apply wellFormed_triangles.
      replace (length points) with (length (toVertex <$> points))
        by apply length_fmap.
      apply candidates_wellFormed.
Qed.

Lemma triangulate_accounts_for_candidates_unitSquare :
  exists vertices indices removed,
    triangulateSimplified unitSquare [] []
    = Some (vertices, indices,
            removed ++ [FilterCompleted (Z.of_nat (length (triangles indices)))])
    /\ Forall isRemovalLine removed
    /\ (length (triangles indices) + length removed = length unitSquare - 2)%nat.
Proof. apply (triangulate_accounts_for_candidates unitSquare). cbn. lia. Defined.

(** X4. The index vector is never cleared: run a second time on the two
    vectors it has just filled, the triangulator returns the same vertices
    and every index twice. *)
Theorem triangulate_never_clears_indices (points : list Point) :
  exists vertices indices log log',
    triangulateSimplified points [] [] = Some (vertices, indices, log)
    /\ triangulateSimplified points vertices indices
       = Some (vertices, indices ++ indices, log').
Proof.
  destruct (decide (length points < 3)%nat) as [Hlt|Hge].
  - exists [], [], [NotEnoughPoints], [NotEnoughPoints].
    unfold triangulateSimplified, triangulateWith.
    by destruct (decide (length points < 3)%nat).
  - assert (H3 : (3 <= length points)%nat) by lia.
    set (vertices := toVertex <$> points).
    set (candidates := flat_map emitted (seq 0 (length points - 2))).
    set (kept := List.filter (shortEdged vertices) (triangles candidates)).
    assert (Hc : wellFormed vertices candidates).
    { unfold candidates. replace (length points) with (length vertices)
        by apply length_fmap.
      apply candidates_wellFormed. }
    assert (Hk : wellFormed vertices (flatten3 kept)).
    { apply wellFormed_flatten3, Forall_filter_bool.
      by apply wellFormed_triangles. }
    exists vertices, (flatten3 kept). eexists _, _. split.
    + by rewrite (triangulateSimplified_enough points [] [] H3 (wellFormed_nil _)).
    + rewrite (triangulateSimplified_enough points vertices (flatten3 kept) H3 Hk).
      fold vertices candidates.
      rewrite triangles_flatten3, filter_bool_app. fold kept.
      assert (Hkk : List.filter (shortEdged vertices) kept = kept)
        by apply filter_filter.
      by rewrite Hkk, flatten3_app.
Qed.

(** ** The comparator given to std::sort *)

Lemma eqb_orderKey (a b : F32.float) :
  (a =? b)%f32 = true <-> exists k, orderKey a = Some k /\ orderKey b = Some k.
Proof. apply SFeqb_orderKey. Qed.

Lemma ltb_orderKey (a b : F32.float) :
  (a <? b)%f32 = true <->
  exists ka kb, orderKey a = Some ka /\ orderKey b = Some kb /\ lexLt ka kb.
Proof. apply SFltb_lexLt. Qed.

Lemma pointLess_orderKey (a b : Point) :
  pointLess a b = true <->
  exists kax kbx, orderKey (Point.x a) = Some kax /\ orderKey (Point.x b) = Some kbx
    /\ (lexLt kax kbx
        \/ (kax = kbx /\ exists kaz kbz,
              orderKey (Point.z a) = Some kaz /\ orderKey (Point.z b) = Some kbz
              /\ lexLt kaz kbz)).
Proof.
  unfold pointLess. rewrite orb_true_iff, andb_true_iff.
  rewrite !ltb_orderKey, eqb_orderKey. split.
  - intros [(kax & kbx & Ha & Hb & Hlt)|[(k & Ha & Hb) Hz]].
    + exists kax, kbx. auto.
    + exists k, k. auto.
  - intros (kax & kbx & Ha & Hb & [Hlt|[<- Hz]]).
    + left. by exists kax, kbx.
    + right. split; [by exists kax|done].
Qed.

Lemma lexLt_total k1 k2 : k1 = k2 \/ lexLt k1 k2 \/ lexLt k2 k1.
Proof.
  destruct k1 as [[a1 b1] c1], k2 as [[a2 b2] c2]. unfold lexLt. cbn [fst snd].
  destruct (Z.lt_trichotomy a1 a2) as [|[->|]]; [lia| |lia].
  destruct (Z.lt_trichotomy b1 b2) as [|[->|]]; [lia| |lia].
  destruct (Z.lt_trichotomy c1 c2) as [|[->|]]; [lia| |lia].
  by left.
Qed.

(** X5. The comparator is a strict order on all points, NaN and
    infinities included: no point goes before itself, two points never go
    before one another, and going before is transitive. *)
Theorem pointLess_strict_order (a b c : Point) :
  pointLess a a = false
  /\ (pointLess a b = true -> pointLess b a = false)
  /\ (pointLess a b = true -> pointLess b c = true -> pointLess a c = true).
Proof.
  assert (Hirr : forall p, pointLess p p = false).
  { intros p. apply not_true_is_false.
    intros (k1 & k2 & H1 & H2 & H)%pointLess_orderKey.
    rewrite H1 in H2. injection H2 as <-.
    destruct H as [H|[_ (z1 & z2 & Hz1 & Hz2 & H)]].
    - by apply lexLt_irrefl in H.
    - rewrite Hz1 in Hz2. injection Hz2 as <-. by apply lexLt_irrefl in H. }
  assert (Htr : forall p q r, pointLess p q = true -> pointLess q r = true ->
                              pointLess p r = true).
  { intros p q r (kp & kq & Hp & Hq & Hpq)%pointLess_orderKey
                 (kq' & kr & Hq' & Hr & Hqr)%pointLess_orderKey.
    rewrite Hq in Hq'. injection Hq' as <-.
    apply pointLess_orderKey. exists kp, kr. split; [done|]. split; [done|].
    destruct Hpq as [Hpq|[-> (zp & zq & Hzp & Hzq & Hzpq)]],
             Hqr as [Hqr|[<- (zq' & zr & Hzq' & Hzr & Hzqr)]].
    - left. by apply (lexLt_trans _ kq).
    - by left.
    - by left.
    - right. split; [done|]. rewrite Hzq in Hzq'. injection Hzq' as <-.
      exists zp, zr. repeat split; [done..|]. by apply (lexLt_trans _ zq). }
  split; [apply Hirr|]. split; [|apply Htr].
  intros Hab. apply not_true_is_false. intros Hba.
  pose proof (Htr _ _ _ Hab Hba) as H. by rewrite Hirr in H.
Qed.

Lemma orderKey_not_nan (f : F32.float) :
  F32.is_nan f = false -> is_Some (orderKey f).
Proof. destruct f as [s|[|]| |[|] m e]; by eauto. Qed.

Lemma pointLess_same_keys (a b : Point) :
  orderKey (Point.x a) = orderKey (Point.x b) ->
  orderKey (Point.z a) = orderKey (Point.z b) ->
  pointLess a b = false.
Proof.
  intros Hx Hz. apply not_true_is_false.
  intros (k1 & k2 & H1 & H2 & H)%pointLess_orderKey.
  rewrite Hx, H2 in H1. injection H1 as <-.
  destruct H as [H|[_ (z1 & z2 & Hz1 & Hz2 & H)]].
  - by apply lexLt_irrefl in H.
  - rewrite Hz, Hz2 in Hz1. injection Hz1 as <-. by apply lexLt_irrefl in H.
Qed.

Lemma incomparable_orderKey (a b : Point) :
  sortable a -> sortable b ->
  incomparable a b <->
  orderKey (Point.x a) = orderKey (Point.x b)
  /\ orderKey (Point.z a) = orderKey (Point.z b).
Proof.
  intros [[kax Hax]%orderKey_not_nan [kaz Haz]%orderKey_not_nan]
         [[kbx Hbx]%orderKey_not_nan [kbz Hbz]%orderKey_not_nan].
  rewrite Hax, Haz, Hbx, Hbz. unfold incomparable. split.
  - intros [Hab Hba].
    assert (Hx : kax = kbx).
    { destruct (lexLt_total kax kbx) as [|[H|H]]; [done| |].
      - assert (pointLess a b = true); [|congruence].
        apply pointLess_orderKey. exists kax, kbx. auto.
      - assert (pointLess b a = true); [|congruence].
        apply pointLess_orderKey. exists kbx, kax. auto. }
    subst kbx. split; [done|]. f_equal.
    destruct (lexLt_total kaz kbz) as [|[H|H]]; [done| |].
    + assert (pointLess a b = true); [|congruence].
      apply pointLess_orderKey. exists kax, kax. repeat split; [done..|].
      right. split; [done|]. by exists kaz, kbz.
    + assert (pointLess b a = true); [|congruence].
      apply pointLess_orderKey. exists kax, kax. repeat split; [done..|].
      right. split; [done|]. by exists kbz, kaz.
  - intros [Hx Hz]. rewrite <- Hax, <- Hbx in Hx. rewrite <- Haz, <- Hbz in Hz.
    split; apply pointLess_same_keys; congruence.
Qed.

(** X6. On points whose [x] and [z] are not NaN the comparator is a strict
    weak ordering, as [std::sort] requires: being incomparable is
    transitive. *)
Theorem pointLess_incomparable_trans (a b c : Point) :
  sortable a -> sortable b -> sortable c ->
  incomparable a b -> incomparable b c -> incomparable a c.
Proof.
  intros Ha Hb Hc Hab Hbc.
  apply (incomparable_orderKey a b Ha Hb) in Hab as [Hx Hz].
  apply (incomparable_orderKey b c Hb Hc) in Hbc as [Hx' Hz'].
  apply (incomparable_orderKey a c Ha Hc). split; congruence.
Qed.

Lemma pointLess_incomparable_trans_sample :
  incomparable
    (Point.Make F32.zero F32.one F32.zero)
    (Point.Make (S754_zero true) F32.two F32.zero)
  /\ incomparable
       (Point.Make F32.zero F32.one F32.zero)
       (Point.Make F32.zero F32.zero (S754_zero true)).
Proof.
  split; [done|].
  apply (pointLess_incomparable_trans _ (Point.Make (S754_zero true) F32.two F32.zero));
    done.
Defined.

(** With a NaN among the [x] this fails: a point with [x = NaN] is
    incomparable with every point, and points on its two sides are not
    incomparable with one another. *)
Example pointLess_nan_not_weak :
  incomparable (Point.Make F32.one F32.zero F32.zero)
               (Point.Make F32.nan F32.zero F32.zero)
  /\ incomparable (Point.Make F32.nan F32.zero F32.zero)
                  (Point.Make F32.two F32.zero F32.zero)
  /\ ~ incomparable (Point.Make F32.one F32.zero F32.zero)
                    (Point.Make F32.two F32.zero F32.zero).
Proof. split; [done|]. split; [done|]. by intros [H _]. Qed.

(** ** calculateNormals: what the result depends on *)

Lemma resetNormals_positions (vertices : list Vertex) :
  resetNormals vertices
  = (fun p => mkVertex p (glm.splat F32.zero)) <$> (position <$> vertices).
Proof. unfold resetNormals. by rewrite <- list_fmap_compose. Qed.

(** X7. The normals the vertices carry on entry play no part: two vertex
    sequences with the same positions get the same result. *)
Theorem calculateNormals_ignores_normals (vertices1 vertices2 : list Vertex)
    (indices : list Z) :
  position <$> vertices1 = position <$> vertices2 ->
  calculateNormals vertices1 indices = calculateNormals vertices2 indices.
Proof.
  intros Hpos. unfold calculateNormals.
  by rewrite (resetNormals_positions vertices1), Hpos, <- resetNormals_positions.
Qed.

Lemma calculateNormals_ignores_normals_sample :
  calculateNormals sampleVerticesLit sampleIndices
  = calculateNormals sampleVertices sampleIndices.
Proof.
  apply (calculateNormals_ignores_normals sampleVerticesLit sampleVertices).
  reflexivity.
Defined.

Lemma calculateNormals_positions vertices indices final :
  calculateNormals vertices indices = Some final ->
  position <$> final = position <$> vertices.
Proof.
  unfold calculateNormals.
  destruct (accumulateLoop (resetNormals vertices) indices) as [acc|] eqn:Hacc;
    [|discriminate].
  cbn [mbind option_bind]. intros [= <-].
  apply accumulateLoop_positions in Hacc. unfold resetNormals in Hacc.
  rewrite <- list_fmap_compose in *. exact Hacc.
Qed.

(** X8. Running the normal estimator again on its own result changes
    nothing. *)
Theorem calculateNormals_idempotent (vertices final : list Vertex)
    (indices : list Z) :
  calculateNormals vertices indices = Some final ->
  calculateNormals final indices = Some final.
Proof.
  intros H. rewrite <- H. apply calculateNormals_ignores_normals.
  by apply (calculateNormals_positions vertices indices).
Qed.

Lemma calculateNormals_idempotent_sample :
  exists final,
    calculateNormals sampleVertices sampleIndices = Some final
    /\ calculateNormals final sampleIndices = Some final.
Proof.
  eexists. split; [vm_compute; reflexivity|].
  apply (calculateNormals_idempotent sampleVertices). vm_compute. reflexivity.
Defined.

(** ** calculateNormals: where NaN comes from *)

Lemma add_nan_l (n : glm.vec3) : glm.add glm.all_nan n = glm.all_nan.
Proof. reflexivity. Qed.

Lemma add_nan_r (v : glm.vec3) : glm.add v glm.all_nan = glm.all_nan.
Proof. destruct v as [[] [] []]; reflexivity. Qed.

Lemma poisoned_alter n i vertices j :
  poisoned vertices j -> poisoned (alter (addNormal n) i vertices) j.
Proof.
  unfold poisoned. intros H. rewrite list_lookup_alter.
  destruct (decide (i = j)) as [->|]; [|done].
  destruct (vertices !! j) as [v|]; [|discriminate].
  cbn in *. injection H as ->. by rewrite add_nan_l.
Qed.

Lemma poisoned_alter_nan i vertices :
  is_Some (vertices !! i) ->
  poisoned (alter (addNormal glm.all_nan) i vertices) i.
Proof.
  unfold poisoned. intros [v Hv]. rewrite list_lookup_alter_eq, Hv. cbn.
  by rewrite add_nan_r.
Qed.

Lemma is_Some_alter {A : Type} (f : A -> A) (l : list A) (i j : nat) :
  is_Some (l !! j) -> is_Some (alter f i l !! j).
Proof.
  intros H%lookup_lt_is_Some. apply lookup_lt_is_Some. by rewrite length_alter.
Qed.

Lemma accumulateLoop_poisoned indices : forall vertices accumulated j,
  accumulateLoop vertices indices = Some accumulated ->
  poisoned vertices j -> poisoned accumulated j.
Proof.
  induction indices as [|a|a b|a b c l IH] using list_ind3;
    intros vertices accumulated j H Hj.
  - by injection H as <-.
  - discriminate H.
  - discriminate H.
  - cbn [accumulateLoop] in H. read_positions H.
    apply (IH _ _ j H). by repeat apply poisoned_alter.
Qed.

Lemma positionAt_alter n i vertices k :
  positionAt (alter (addNormal n) i vertices) k = positionAt vertices k.
Proof.
  unfold positionAt. rewrite <- !list_lookup_fmap.
  by rewrite positions_alter_addNormal.
Qed.

Lemma positionAt_is_Some vertices i v :
  positionAt vertices i = Some v -> is_Some (vertices !! Z.to_nat i).
Proof.
  unfold positionAt. destruct (vertices !! Z.to_nat i); [by eauto|discriminate].
Qed.

Lemma elem_of_triangles_cons3 a b c l t :
  t ∈ triangles (a :: b :: c :: l) <-> t = (a, b, c) \/ t ∈ triangles l.
Proof. cbn [triangles]. apply elem_of_cons. Qed.

Lemma accumulateLoop_degenerate indices : forall vertices accumulated t,
  accumulateLoop vertices indices = Some accumulated ->
  t ∈ triangles indices -> degenerate vertices t ->
  poisoned accumulated (Z.to_nat t.1.1)
  /\ poisoned accumulated (Z.to_nat t.1.2)
  /\ poisoned accumulated (Z.to_nat t.2).
Proof.
  induction indices as [|a|a b|a b c l IH] using list_ind3;
    intros vertices accumulated t H Ht Hd.
  - by apply elem_of_nil in Ht.
  - by apply elem_of_nil in Ht.
  - by apply elem_of_nil in Ht.
  - apply elem_of_triangles_cons3 in Ht as [->|Ht].
    + destruct Hd as (v0 & v1 & v2 & E0 & E1 & E2 & Hz). cbn [fst snd] in *.
      cbn [accumulateLoop] in H. rewrite E0, E1, E2 in H.
      cbn [mbind option_bind] in H.
      unfold faceNormal in H. rewrite (normalize_zero_is_nan _ Hz) in H.
      apply positionAt_is_Some in E0, E1, E2.
      repeat split; apply (accumulateLoop_poisoned _ _ _ _ H).
      * do 2 apply poisoned_alter. by apply poisoned_alter_nan.
      * apply poisoned_alter. apply poisoned_alter_nan. by apply is_Some_alter.
      * apply poisoned_alter_nan. by do 2 apply is_Some_alter.
    + cbn [accumulateLoop] in H. read_positions H.
      apply (IH _ _ t H Ht).
      destruct Hd as (q0 & q1 & q2 & E0 & E1 & E2 & Hz).
      exists q0, q1, q2. by rewrite !positionAt_alter.
Qed.

Lemma positionAt_resetNormals vertices i :
  positionAt (resetNormals vertices) i = positionAt vertices i.
Proof.
  unfold positionAt, resetNormals. rewrite list_lookup_fmap.
  by destruct (vertices !! Z.to_nat i).
Qed.

Lemma poisoned_normalized (accumulated : list Vertex) (j : nat) :
  poisoned accumulated j -> poisoned (normalizeNormal <$> accumulated) j.
Proof.
  unfold poisoned. rewrite list_lookup_fmap.
  destruct (accumulated !! j) as [v|]; [|discriminate].
  cbn. intros [= ->]. reflexivity.
Qed.

(** X9. A triangle whose edge vectors have a zero cross product makes the
    normals of its three vertices NaN in every component, whatever other
    triangles these vertices belong to. *)
Theorem degenerate_triangle_poisons_vertices (vertices final : list Vertex)
    (indices : list Z) (t : Z * Z * Z) :
  calculateNormals vertices indices = Some final ->
  t ∈ triangles indices ->
  degenerate vertices t ->
  poisoned final (Z.to_nat t.1.1)
  /\ poisoned final (Z.to_nat t.1.2)
  /\ poisoned final (Z.to_nat t.2).
Proof.
  unfold calculateNormals. intros H Ht Hd.
  destruct (accumulateLoop (resetNormals vertices) indices) as [acc|] eqn:Hacc;
    [|discriminate].
  cbn [mbind option_bind] in H. injection H as <-.
  destruct (accumulateLoop_degenerate _ _ _ t Hacc Ht) as (H0 & H1 & H2).
  { destruct Hd as (q0 & q1 & q2 & E0 & E1 & E2 & Hz).
    exists q0, q1, q2. by rewrite !positionAt_resetNormals. }
  repeat split; by apply poisoned_normalized.
Qed.

Lemma degenerate_triangle_poisons_vertices_sample :
  exists final,
    calculateNormals lineVertices [0; 1; 2; 0; 1; 3] = Some final
    /\ poisoned final 0 /\ poisoned final 1 /\ poisoned final 2.
Proof.
  eexists. split; [vm_compute; reflexivity|].
  apply (degenerate_triangle_poisons_vertices lineVertices _ [0; 1; 2; 0; 1; 3]
           (0, 1, 2)).
  - vm_compute. reflexivity.
  - left.
  - eexists _, _, _. repeat split; reflexivity.
Defined.

(** X10. A vertex that no index names ends with a normal that is NaN in
    every component. *)
Theorem unreferenced_vertex_normal_nan (vertices final : list Vertex)
    (indices : list Z) (j : nat) :
  calculateNormals vertices indices = Some final ->
  (j < length vertices)%nat ->
  (forall i, i ∈ indices -> Z.to_nat i <> j) ->
  poisoned final j.
Proof.
  unfold calculateNormals. intros H Hlt Hj.
  destruct (accumulateLoop (resetNormals vertices) indices) as [acc|] eqn:Hacc;
    [|discriminate].
  cbn [mbind option_bind] in H. injection H as <-.
  destruct (lookup_lt_is_Some_2 vertices j Hlt) as [v Hv].
  unfold poisoned. rewrite list_lookup_fmap.
  rewrite (accumulateLoop_unreferenced _ _ _ j Hacc Hj).
  unfold resetNormals. by rewrite list_lookup_fmap, Hv.
Qed.

Lemma unreferenced_vertex_normal_nan_sample :
  exists final,
    calculateNormals sampleVertices [0; 1; 2] = Some final /\ poisoned final 3.
Proof.
  eexists. split; [vm_compute; reflexivity|].
  apply (unreferenced_vertex_normal_nan sampleVertices _ [0; 1; 2] 3).
  - vm_compute. reflexivity.
  - cbn. lia.
  - intros i Hi. rewrite !elem_of_cons in Hi.
    destruct Hi as [->|[->|[->|Hi]]]; [done..|]. by apply elem_of_nil in Hi.
Defined.

(** ** main: the construction as a whole *)

Lemma calculateNormals_defined vertices indices :
  wellFormed vertices indices ->
  exists final,
    calculateNormals vertices indices = Some final
    /\ position <$> final = position <$> vertices.
Proof.
  intros Hwf. unfold calculateNormals.
  destruct (accumulateLoop_defined indices (resetNormals vertices)) as [acc Hacc].
  { eapply wellFormed_same_length; [|exact Hwf]. unfold resetNormals.
    by rewrite length_fmap. }
  rewrite Hacc. cbn [mbind option_bind]. eexists. split; [done|].
  apply accumulateLoop_positions in Hacc. unfold resetNormals in Hacc.
  rewrite <- list_fmap_compose in *. exact Hacc.
Qed.

(** X11. For every non-empty point sequence the construction in [main]
    runs to the end without reading or writing outside a vector, and what
    it hands to the renderer is a mesh: every index is a position of the
    vertex sequence and the indices come three by three. With three points
    or more there is one vertex per point, placed at the normalised point;
    with one or two points both vectors are empty. *)
Theorem main_builds_a_mesh (p0 : Point) (rest : list Point) :
  let points := p0 :: rest in
  exists vertices indices log,
    main points = Some (Rendered vertices indices, log)
    /\ wellFormed vertices indices
    /\ (if decide (length points < 3)%nat
        then vertices = [] /\ indices = []
        else position <$> vertices
             = position <$> (toVertex <$> (normalizePoints points).1)).
Proof.
  intros points. unfold main. fold points.
  destruct (normalizePoints points) as [np log1] eqn:Enp.
  assert (Hlen : length np = length points).
  { destruct (normalizePoints_pointwise points) as (b & _ & Hl).
    by rewrite Enp in Hl. }
  unfold points at 1. cbn [fst].
  destruct (decide (length points < 3)%nat) as [Hlt|Hge].
  - exists [], []. eexists. split; [|split; [apply wellFormed_nil|done]].
    unfold triangulateSimplified, triangulateWith. rewrite Hlen.
    destruct (decide (length points < 3)%nat); [|lia]. reflexivity.
  - assert (H3 : (3 <= length np)%nat) by lia.
    set (vertices := toVertex <$> np).
    set (kept := List.filter (shortEdged vertices)
                   (triangles (flat_map emitted (seq 0 (length np - 2))))).
    assert (Hk : wellFormed vertices (flatten3 kept)).
    { apply wellFormed_flatten3, Forall_filter_bool, wellFormed_triangles.
      replace (length np) with (length vertices) by apply length_fmap.
      apply candidates_wellFormed. }
    destruct (calculateNormals_defined _ _ Hk) as (final & Hfinal & Hpos).
    exists final, (flatten3 kept). eexists. split; [|split].
    + rewrite (triangulateSimplified_enough np [] [] H3 (wellFormed_nil _)).
      cbn [mbind option_bind triangles app]. fold vertices kept.
      rewrite Hfinal. reflexivity.
    + eapply wellFormed_same_length; [|exact Hk].
      by rewrite <- (length_fmap position), <- Hpos, length_fmap.
    + done.
Qed.

(** ** isPointInCircumcircle *)

Create HintDb zeroOrNaN.

Lemma zeroOrNaN_sub_self (a : F32.float) : zeroOrNaN (a - a)%f32.
Proof.
  destruct a as [[|]|[|]| |s m e]; try (by left); try (by right).
  left. unfold F32.sub, SFsub. by rewrite Z.sub_diag.
Qed.

Lemma zeroOrNaN_mul_l (a b : F32.float) : zeroOrNaN a -> zeroOrNaN (a * b)%f32.
Proof.
  intros [H|H]; destruct a; try discriminate H;
    destruct b; by (left + right).
Qed.

Lemma zeroOrNaN_mul_r (a b : F32.float) : zeroOrNaN b -> zeroOrNaN (a * b)%f32.
Proof.
  intros [H|H]; destruct b; try discriminate H;
    destruct a; by (left + right).
Qed.

Lemma zeroOrNaN_add (a b : F32.float) :
  zeroOrNaN a -> zeroOrNaN b -> zeroOrNaN (a + b)%f32.
Proof.
  intros [Ha|Ha] [Hb|Hb]; destruct a as [[|]| | |]; try discriminate Ha;
    destruct b as [[|]| | |]; try discriminate Hb; by (left + right).
Qed.

Lemma zeroOrNaN_sub (a b : F32.float) :
  zeroOrNaN a -> zeroOrNaN b -> zeroOrNaN (a - b)%f32.
Proof.
  intros [Ha|Ha] [Hb|Hb]; destruct a as [[|]| | |]; try discriminate Ha;
    destruct b as [[|]| | |]; try discriminate Hb; by (left + right).
Qed.

Lemma zeroOrNaN_opp (a : F32.float) : zeroOrNaN a -> zeroOrNaN (SFopp a).
Proof. intros [H|H]; destruct a; try discriminate H; by (left + right). Qed.

Lemma zeroOrNaN_not_positive (a : F32.float) :
  zeroOrNaN a -> (a >? F32.zero)%f32 = false.
Proof. intros [H|H]; destruct a; try discriminate H; reflexivity. Qed.

#[local] Hint Resolve zeroOrNaN_sub_self zeroOrNaN_mul_l zeroOrNaN_mul_r
  zeroOrNaN_add zeroOrNaN_sub zeroOrNaN_opp : zeroOrNaN.

(** The column of a corner that coincides with [p]. *)
Lemma circumcircleColumn_self (p : glm.vec3) :
  zeroOrNaN (glm4.x (circumcircleColumn p p))
  /\ zeroOrNaN (glm4.y (circumcircleColumn p p))
  /\ zeroOrNaN (glm4.z (circumcircleColumn p p))
  /\ zeroOrNaN (glm4.w (circumcircleColumn p p)).
Proof. unfold circumcircleColumn. cbn. repeat split; auto 6 with zeroOrNaN. Qed.

Lemma determinant_column0 (m : glm4.mat4) :
  zeroOrNaN (glm4.x (glm4.c0 m)) -> zeroOrNaN (glm4.y (glm4.c0 m)) ->
  zeroOrNaN (glm4.z (glm4.c0 m)) -> zeroOrNaN (glm4.w (glm4.c0 m)) ->
  zeroOrNaN (glm4.determinant m).
Proof. intros. unfold glm4.determinant. cbv zeta. auto 8 with zeroOrNaN. Qed.

Lemma determinant_column1 (m : glm4.mat4) :
  zeroOrNaN (glm4.x (glm4.c1 m)) -> zeroOrNaN (glm4.y (glm4.c1 m)) ->
  zeroOrNaN (glm4.z (glm4.c1 m)) -> zeroOrNaN (glm4.w (glm4.c1 m)) ->
  zeroOrNaN (glm4.determinant m).
Proof. intros. unfold glm4.determinant. cbv zeta. auto 10 with zeroOrNaN. Qed.

Lemma determinant_column2 (m : glm4.mat4) :
  zeroOrNaN (glm4.x (glm4.c2 m)) -> zeroOrNaN (glm4.y (glm4.c2 m)) ->
  zeroOrNaN (glm4.z (glm4.c2 m)) -> zeroOrNaN (glm4.w (glm4.c2 m)) ->
  zeroOrNaN (glm4.determinant m).
Proof. intros. unfold glm4.determinant. cbv zeta. auto 12 with zeroOrNaN. Qed.

(** X12. A point that is a corner of the triangle is never reported inside
    the circumcircle, whichever corner it is and whatever the floats,
    infinities and NaN included: the determinant is then a zero or NaN. *)
Theorem isPointInCircumcircle_corner (p q r : glm.vec3) :
  isPointInCircumcircle p p q r = false
  /\ isPointInCircumcircle p q p r = false
  /\ isPointInCircumcircle p q r p = false.
Proof.
  destruct (circumcircleColumn_self p) as (Hx & Hy & Hz & Hw).
  unfold isPointInCircumcircle.
  repeat split; apply zeroOrNaN_not_positive.
  - by apply determinant_column0.
  - by apply determinant_column1.
  - by apply determinant_column2.
Qed.

Lemma determinant_row2 (m : glm4.mat4) :
  zeroOrNaN (glm4.z (glm4.c0 m)) -> zeroOrNaN (glm4.z (glm4.c1 m)) ->
  zeroOrNaN (glm4.z (glm4.c2 m)) -> zeroOrNaN (glm4.z (glm4.c3 m)) ->
  zeroOrNaN (glm4.determinant m).
Proof. intros. unfold glm4.determinant. cbv zeta. auto 12 with zeroOrNaN. Qed.

(** X13. When the point and the three corners have the same [z], the test
    answers false whatever their [x] and [y]: the matrix then has a row of
    zeros (or NaN) and its determinant is never positive. *)
Theorem isPointInCircumcircle_same_z (p a b c : glm.vec3) :
  glm.z a = glm.z p -> glm.z b = glm.z p -> glm.z c = glm.z p ->
  isPointInCircumcircle p a b c = false.
Proof.
  intros Ha Hb Hc. unfold isPointInCircumcircle.
  apply zeroOrNaN_not_positive, determinant_row2; cbn; rewrite ?Ha, ?Hb, ?Hc;
    try apply zeroOrNaN_sub_self.
  by left.
Qed.

Lemma isPointInCircumcircle_same_z_sample :
  isPointInCircumcircle
    (glm.Vec3 F32.one F32.one F32.zero)
    (glm.Vec3 F32.zero F32.zero F32.zero)
    (glm.Vec3 (F32.of_Z 4) F32.zero F32.zero)
    (glm.Vec3 F32.zero (F32.of_Z 4) F32.zero) = false.
Proof. apply isPointInCircumcircle_same_z; reflexivity. Defined.

(** The test does answer true on other inputs. *)
Example isPointInCircumcircle_true :
  isPointInCircumcircle
    (glm.Vec3 F32.one F32.one (F32.of_Z (-1)))
    (glm.Vec3 F32.zero F32.zero F32.zero)
    (glm.Vec3 (F32.of_Z 4) F32.zero F32.zero)
    (glm.Vec3 F32.zero (F32.of_Z 4) F32.zero) = true.
Proof. vm_compute. reflexivity. Qed.

(** ** keyCallback *)

Lemma keyCallback_lookup_ne (keys : list bool) (key scancode action mods : Z) :
  length (keyCallback keys key scancode action mods) = length keys
  /\ (forall j, Z.of_nat j <> key ->
        keyCallback keys key scancode action mods !! j = keys !! j).
Proof.
  unfold keyCallback.
  destruct ((0 <=? key) && (key <? 1024)) eqn:Hin; [|done].
  apply andb_prop in Hin as [H0%Z.leb_le H1%Z.ltb_lt].
  destruct (action =? GLFW_PRESS); [|destruct (action =? GLFW_RELEASE)];
    rewrite ?length_insert; split; try done;
    intros; apply list_lookup_insert_ne; lia.
Qed.

(** X14. The callback writes at most the entry of its key, and only for a
    key from 0 to 1023: the table keeps its size, every other entry keeps
    its value, and a key outside the table (as the -1 of an unknown key)
    or an action that is neither press nor release changes nothing. *)
Theorem keyCallback_frame (keys : list bool) (key scancode action mods : Z) :
  length (keyCallback keys key scancode action mods) = length keys
  /\ (forall j, Z.of_nat j <> key ->
        keyCallback keys key scancode action mods !! j = keys !! j)
  /\ (~ (0 <= key < 1024) -> keyCallback keys key scancode action mods = keys)
  /\ (action <> GLFW_PRESS -> action <> GLFW_RELEASE ->
        keyCallback keys key scancode action mods = keys).
Proof.
  destruct (keyCallback_lookup_ne keys key scancode action mods) as [Hlen Hne].
  repeat split; [done..| |]; unfold keyCallback.
  - intros Hout.
    destruct (Z.leb_spec 0 key), (Z.ltb_spec key 1024); cbn [andb]; try done; lia.
  - intros Hp Hr.
    destruct (Z.eqb_spec action GLFW_PRESS), (Z.eqb_spec action GLFW_RELEASE);
      try done; by destruct (_ && _).
Qed.

(** X15. For a key of the table, a press sets its entry and a release
    clears it; releasing a key that was pressed while up gives back the
    table as it was, and pressing twice is pressing once. *)
Theorem keyCallback_press_release (keys : list bool) (key s1 m1 s2 m2 : Z) :
  length keys = KEY_COUNT -> 0 <= key < 1024 ->
  let pressed := keyCallback keys key s1 GLFW_PRESS m1 in
  keyDown pressed (Z.to_nat key) = true
  /\ keyDown (keyCallback pressed key s2 GLFW_RELEASE m2) (Z.to_nat key) = false
  /\ keyCallback pressed key s2 GLFW_PRESS m2 = pressed
  /\ (keyDown keys (Z.to_nat key) = false ->
        keyCallback pressed key s2 GLFW_RELEASE m2 = keys).
Proof.
  intros Hlen Hkey pressed. unfold pressed, keyCallback, keyDown, KEY_COUNT in *.
  destruct (Z.leb_spec 0 key); [|lia]. destruct (Z.ltb_spec key 1024); [|lia].
  cbn [andb].
  change (GLFW_PRESS =? GLFW_PRESS) with true.
  change (GLFW_PRESS =? GLFW_RELEASE) with false.
  change (GLFW_RELEASE =? GLFW_PRESS) with false.
  change (GLFW_RELEASE =? GLFW_RELEASE) with true.
  cbv iota.
  assert (Hin : (Z.to_nat key < length keys)%nat) by lia.
  rewrite !list_insert_insert_eq. repeat split.
  - by rewrite list_lookup_insert_eq.
  - by rewrite list_lookup_insert_eq by (rewrite ?length_insert; lia).
  - intros Hup. apply list_insert_id.
    destruct (lookup_lt_is_Some_2 keys _ Hin) as [b Hb].
    rewrite Hb in Hup |- *. cbn in Hup. by subst.
Qed.

Lemma keyCallback_press_release_W :
  let pressed := keyCallback noKeys 87 17 GLFW_PRESS 0 in
  keyDown pressed (Z.to_nat 87) = true
  /\ keyDown (keyCallback pressed 87 17 GLFW_RELEASE 0) (Z.to_nat 87) = false
  /\ keyCallback pressed 87 17 GLFW_PRESS 0 = pressed
  /\ (keyDown noKeys (Z.to_nat 87) = false ->
        keyCallback pressed 87 17 GLFW_RELEASE 0 = noKeys).
Proof.
  apply (keyCallback_press_release noKeys 87 17 0 17 0); [reflexivity|lia].
Defined.

(** ** processInput *)

Lemma sub_nan_r (v : glm.vec3) : glm.sub v glm.all_nan = glm.all_nan.
Proof. destruct v as [[] [] []]; reflexivity. Qed.

Lemma scale_nan (s : F32.float) : glm.scale glm.all_nan s = glm.all_nan.
Proof. reflexivity. Qed.

(** X16. Strafing with [cameraFront] parallel to [cameraUp] loses the
    camera: the cross product is the zero vector, its normalisation
    divides by zero, and with A or D held every coordinate of the new
    position is NaN, wherever the camera was and whatever W and S do. *)
Theorem processInput_strafe_parallel (keys : list bool) (deltaTime : F32.float)
    (cameraFront cameraUp cameraPos : glm.vec3) :
  keyDown keys GLFW_KEY_A = true \/ keyDown keys GLFW_KEY_D = true ->
  glm.is_zero (glm.cross cameraFront cameraUp) = true ->
  processInput keys deltaTime cameraFront cameraUp cameraPos = glm.all_nan.
Proof.
  intros Hkey Hzero. unfold processInput. cbv zeta.
  rewrite (normalize_zero_is_nan _ Hzero), scale_nan.
  destruct Hkey as [-> | ->].
  - rewrite sub_nan_r. by destruct (keyDown keys GLFW_KEY_D).
  - by rewrite add_nan_r.
Qed.

Lemma processInput_strafe_parallel_up :
  processInput (<[GLFW_KEY_D := true]> noKeys) F32.one
    (glm.Vec3 F32.zero F32.one F32.zero) (glm.Vec3 F32.zero F32.one F32.zero)
    (glm.Vec3 F32.zero F32.zero (F32.of_Z 3)) = glm.all_nan.
Proof.
  apply processInput_strafe_parallel; [right|]; reflexivity.
Defined.

(** X17. Only the four entries W, A, S and D of the table are read: a key
    event for any other key leaves the next camera position as it would
    have been. *)
Theorem processInput_other_key (keys : list bool) (key scancode action mods : Z)
    (deltaTime : F32.float) (cameraFront cameraUp cameraPos : glm.vec3) :
  key <> 87 -> key <> 83 -> key <> 65 -> key <> 68 ->
  processInput (keyCallback keys key scancode action mods) deltaTime
    cameraFront cameraUp cameraPos
  = processInput keys deltaTime cameraFront cameraUp cameraPos.
Proof.
  intros HW HS HA HD.
  destruct (keyCallback_lookup_ne keys key scancode action mods) as [_ Hne].
  unfold processInput, keyDown, GLFW_KEY_W, GLFW_KEY_S, GLFW_KEY_A, GLFW_KEY_D.
  by rewrite !Hne by lia.
Qed.

Lemma processInput_other_key_escape :
  processInput (keyCallback (<[GLFW_KEY_W := true]> noKeys) 256 9 GLFW_PRESS 0)
    F32.one (glm.Vec3 F32.zero F32.zero F32.one)
    (glm.Vec3 F32.zero F32.one F32.zero) glm.zero
  = processInput (<[GLFW_KEY_W := true]> noKeys)
    F32.one (glm.Vec3 F32.zero F32.zero F32.one)
    (glm.Vec3 F32.zero F32.one F32.zero) glm.zero.
Proof. apply processInput_other_key; lia. Defined.

(** ** mouseCallback *)

Lemma clampPitch_inRange (p : F32.float) : pitchInRange (clampPitch p).
Proof.
  unfold clampPitch, pitchInRange. cbv zeta.
  destruct (p >? pitchMax)%f32 eqn:Hmax.
  - by vm_compute.
  - destruct (p <? pitchMin)%f32 eqn:Hmin; [by vm_compute|done].
Qed.

Lemma pitchInRange_bounds (p : F32.float) :
  pitchInRange p -> F32.is_nan p = false ->
  SFleb pitchMin p = true /\ SFleb p pitchMax = true.
Proof.
  intros [Hmax Hmin] Hnan. pose proof (orderKey_not_nan p Hnan) as Hp.
  split; apply SFleb_of_not_ltb; try done; by eexists.
Qed.

(** X18. The pitch stays between -89 and 89 degrees: after an event with
    the right button up it is neither above 89 nor below -89 whatever it
    was before, an event with the button down keeps a pitch that was in
    that range, and a pitch that is a number is then at least -89 and at
    most 89. *)
Theorem mouseCallback_pitch_range (cosf sinf : F32.float -> F32.float)
    (isRMBPressed : bool) (st : MouseState) (xpos ypos : F64.float) :
  isRMBPressed = false \/ pitchInRange (pitch st) ->
  let p := pitch (mouseCallback cosf sinf isRMBPressed st xpos ypos) in
  pitchInRange p
  /\ (F32.is_nan p = false -> SFleb pitchMin p = true /\ SFleb p pitchMax = true).
Proof.
  intros H p.
  assert (Hp : pitchInRange p).
  { unfold p, mouseCallback. cbn [pitch]. destruct isRMBPressed.
    - by destruct H.
    - apply clampPitch_inRange. }
  split; [done|]. by apply pitchInRange_bounds.
Qed.

Lemma mouseCallback_pitch_range_sample :
  let p := pitch (mouseCallback (fun a => a) (fun a => a) false mouseState1
                    (to_double (F32.of_Z 960)) (to_double (F32.of_Z (-4000)))) in
  pitchInRange p
  /\ (F32.is_nan p = false -> SFleb pitchMin p = true /\ SFleb p pitchMax = true).
Proof.
  apply (mouseCallback_pitch_range (fun a => a) (fun a => a) false mouseState1).
  left. reflexivity.
Defined.

(** The sample event drags the pitch to 454 degrees, which the callback
    cuts to 89. *)
Example mouseCallback_clamps_sample :
  pitch (mouseCallback (fun a => a) (fun a => a) false mouseState1
           (to_double (F32.of_Z 960)) (to_double (F32.of_Z (-4000))))
  = pitchMax.
Proof. vm_compute. reflexivity. Qed.

Lemma sub_self_exact (d : F64.float) :
  match d with S754_finite _ _ _ | S754_zero _ => True | _ => False end ->
  F64.sub d d = S754_zero false.
Proof.
  destruct d as [[|]| | |s m e]; try done. intros _.
  unfold F64.sub, SFsub. by rewrite Z.sub_diag.
Qed.

Lemma offset_exact (d : F64.float) :
  exactFloat d ->
  (to_float (F64.sub d (to_double (to_float d))) * sensitivity)%f32 = F32.zero
  /\ (to_float (F64.sub (to_double (to_float d)) d) * sensitivity)%f32 = F32.zero.
Proof. intros [Hfin ->]. by rewrite sub_self_exact. Qed.

Lemma add_zero_r (a : F32.float) :
  a <> negativeZero -> (a + F32.zero)%f32 = a.
Proof. destruct a as [[|]| | |]; done. Qed.

Lemma clampPitch_id (p : F32.float) : pitchInRange p -> clampPitch p = p.
Proof. intros [Hmax Hmin]. unfold clampPitch. cbv zeta. by rewrite Hmax, Hmin. Qed.



(** Without the flag the same event would have turned the camera. *)
Example mouseCallback_later_event_sample :
  yaw (mouseCallback (fun a => a) (fun a => a) false mouseState1
         (to_double (F32.of_Z 100)) (to_double (F32.of_Z 700)))
  <> yaw mouseState1.
Proof. vm_compute. discriminate. Qed.
